(** * Datasuite Download Center: the CSV consolidation pipeline of server.js

    A shallow embedding of [src/Ongoing/datasuite-download-center/server.js]:
    the [POST /api/upload] handler (entry filter, per-entry parser callbacks,
    distinct-value collectors, preview, csv-stringify sink, error path) and the
    [GET /api/preview] handler (path resolution and bounded read-out). *)

From Stdlib Require Import Ascii String ZArith QArith Qround.
From stdpp Require Import gmap strings list.

Open Scope string_scope.
Open Scope list_scope.

(** ** JavaScript strings and values *)

Module Js.

(** [String.prototype.toLowerCase], on the ASCII range (the only range that
    can produce the characters of the suffix [.csv]). *)
Definition lower_ascii (c : ascii) : ascii :=
  let n := nat_of_ascii c in
  if (65 <=? n)%nat && (n <=? 90)%nat then ascii_of_nat (n + 32) else c.

Fixpoint toLowerCase (s : string) : string :=
  match s with
  | EmptyString => EmptyString
  | String c s' => String (lower_ascii c) (toLowerCase s')
  end.

(** [String.prototype.endsWith]. *)
Definition endsWith (s suffix : string) : bool :=
  let n := String.length s in
  let k := String.length suffix in
  (k <=? n)%nat && String.eqb (substring (n - k) k s) suffix.

(** Truthiness of a string: every string but the empty one. *)
Definition truthy (s : string) : bool := negb (String.eqb s "").

(** [a || b] where [a] is a property read ([None] is [undefined]) and [b] a
    string. *)
Definition or_else (a : option string) (b : string) : string :=
  match a with
  | Some v => if truthy v then v else b
  | None => b
  end.

(** The values the objects of the handlers hold: strings, and what the read of
    a name an object does not own finds on [Object.prototype] (a function, or
    the prototype object itself under [__proto__]). *)
Inductive value :=
| Str (s : string)
| Inherited (member : string).

(** The property names of [Object.prototype]. *)
Definition prototype_members : list string :=
  [ "constructor"; "__defineGetter__"; "__defineSetter__"; "hasOwnProperty";
    "__lookupGetter__"; "__lookupSetter__"; "isPrototypeOf";
    "propertyIsEnumerable"; "toString"; "valueOf"; "__proto__";
    "toLocaleString" ].

Definition digit (c : ascii) : option N :=
  let n := N_of_ascii c in
  if (48 <=? n)%N && (n <=? 57)%N then Some (n - 48)%N else None.

Fixpoint digits (s : string) (acc : N) : option N :=
  match s with
  | EmptyString => Some acc
  | String c s' =>
      match digit c with
      | Some d => digits s' (10 * acc + d)%N
      | None => None
      end
  end.

(** The array index a property name stands for, if any: the decimal numeral,
    without leading zero, of a number up to [2^32 - 2]. *)
Definition array_index (k : string) : option N :=
  match k with
  | EmptyString => None
  | String c rest =>
      if Ascii.eqb c "0" && negb (String.eqb rest "") then None
      else match digits k 0 with
           | Some n => if (n <=? 4294967294)%N then Some n else None
           | None => None
           end
  end.

(** Whether a new own property [k] goes ahead of the own property [k']:
    array indices come first, in ascending order. *)
Definition before (k k' : string) : bool :=
  match array_index k, array_index k' with
  | Some n, Some n' => (n <? n')%N
  | Some _, None => true
  | None, _ => false
  end.

(** A plain object: its own properties, in the order [Object.keys] and
    csv-stringify list them (array indices ascending, then the other names
    in the order of their creation). *)
Abbreviation obj := (list (string * value)).

(** The definition of an own property, as [Object.fromEntries] does it: the
    value of a present key is replaced, a new key takes its place in the
    order. *)
Fixpoint define (k : string) (v : value) (o : obj) : obj :=
  match o with
  | [] => [(k, v)]
  | (k', v') :: o' =>
      if decide (k = k') then (k, v) :: o'
      else if before k k' then (k, v) :: (k', v') :: o'
      else (k', v') :: define k v o'
  end.

(** The assignment [o[k] = v]: under [__proto__] it runs the setter of
    [Object.prototype], which makes no own property. *)
Definition set (k : string) (v : value) (o : obj) : obj :=
  if decide (k = "__proto__") then o else define k v o.

(** The own property under [k]. *)
Fixpoint get (k : string) (o : obj) : option value :=
  match o with
  | [] => None
  | (k', v') :: o' => if decide (k = k') then Some v' else get k o'
  end.

(** The read [o[k]]: the own property, else the member of
    [Object.prototype] of that name, else [undefined]. *)
Definition read (k : string) (o : obj) : option value :=
  match get k o with
  | Some v => Some v
  | None => if decide (k ∈ prototype_members) then Some (Inherited k) else None
  end.

(** The read [o[k]] of a name that is no member of [Object.prototype], in
    an object that holds strings under such names. *)
Definition string_at (k : string) (o : obj) : option string :=
  match get k o with
  | Some (Str s) => Some s
  | _ => None
  end.

Definition keys (o : obj) : list string := map fst o.

(** [Object.fromEntries] over a list of pairs. *)
Definition fromEntries (kvs : list (string * value)) : obj :=
  foldl (λ o kv, define kv.1 kv.2 o) [] kvs.

(** A [Set] of strings; iteration (hence [Array.from]) follows insertion
    order. *)
Abbreviation sset := (list string).

Definition add (x : string) (s : sset) : sset :=
  if decide (x ∈ s) then s else s ++ [x].

(** A number: a finite value, [NaN], or an infinity. *)
Inductive number :=
| Num (q : Q)
| NaN
| Infinity
| NegInfinity.

(** [n < x] for a length [n]. *)
Definition length_lt (n : nat) (x : number) : bool :=
  match x with
  | Num q => negb (Qle_bool q (inject_Z (Z.of_nat n)))
  | NaN => false
  | Infinity => true
  | NegInfinity => false
  end.

End Js.

(** ** Configuration *)

(** [DROP_HEADERS], server.js lines 49-60. *)
Definition DROP_HEADERS : gset string :=
  list_to_set
    [ "Number TO"; "Status"; "High Value"; "Sender ID"; "Sender Name";
      "Sender Type"; "Sender";
      "Receiver Name";
      "Station Type"; "Current Station"; "TO Order"; "Quantity";
      "TO Direction"; "Volumetric Weight"; "Weight";
      "Line Hual Trip Number"; "Operator"; "Create Time"; "Complete Time";
      "Driver Scan Time"; "Journey Type"; "Remark"; "Receive Status";
      "TO Remark" ].

Definition PREVIEW_LIMIT : nat := 50.

(** ** The archive as the handler sees it *)

(** A raw row of csv-parser: the fields it owns, by header name. *)
Abbreviation raw_row := (gmap string string).

Inductive entry_type := File | Directory.

(** What the parser of one entry emits before its stream ends. *)
Inductive parser_event :=
| Headers (headers : list string)
| Data (row : raw_row).

(** How the stream of one entry ends: with the ['end'] of the parser; with
    an ['error'] of the parser, which the listener of line 166 turns into a
    rejection (the parser of line 114 is created without [strict] and raises
    none over the content of an entry, whatever it is); or with an ['error']
    of the entry stream piped into it (line 169), which has no listener. *)
Inductive stream_end :=
| End
| Error (err : string)
| Broken (err : string).

Record zip_entry := {
  path : string;
  type : entry_type;
  events : list parser_event;
  ending : stream_end
}.

#[global] Instance entry_type_eq_dec : EqDecision entry_type.
Proof. solve_decision. Defined.

(** The filter of line 92. *)
Definition is_csv_entry (f : zip_entry) : bool :=
  Js.truthy (path f)
  && bool_decide (type f = File)
  && Js.endsWith (Js.toLowerCase (path f)) ".csv".

Definition csvEntries (files : list zip_entry) : list zip_entry :=
  List.filter is_csv_entry files.

(** The [fileFilter] of the upload middleware, lines 38-43: the callback gets
    an error for a name that does not end in [.zip], and [true] otherwise. *)
Inductive filter_result :=
| Accept
| Reject (err : string).

Definition fileFilter (originalname : string) : filter_result :=
  if negb (Js.endsWith (Js.toLowerCase originalname) ".zip")
  then Reject "Only .zip files are allowed"
  else Accept.

(** ** The csv-stringify sink

    [stringify({ header: true })] of line 102, piped into the file (line 105).
    The transform of the csv-stringify package keeps its options, among them
    [header] and the column list, and a count of the records written.  No
    [columns] option is passed here, so the columns are discovered from the
    keys of the first record written; every record is put out as its values
    at these columns; and with [header] on, the column names are put out as a
    line of their own ahead of the first record.  A value that is neither a
    string nor an object nor undefined cannot be cast: the transform emits
    ['error'] (its message is kept by its first words) and puts out nothing
    more.  A line is kept as the list of its fields (quoting and delimiters
    play no part below). *)
Module Stringifier.

Record t := {
  header : bool;
  columns : option (list string);
  records : nat;
  output : list (list string);
  failed : option string
}.

Definition stringify (header : bool) : t :=
  {| header := header; columns := None; records := 0; output := [];
     failed := None |}.

(** One field: the record's value at the column; empty when undefined, the
    JSON text of the prototype object when that is what the read finds, and
    no field at all for a function. *)
Definition field (record : Js.obj) (c : string) : option string :=
  match Js.read c record with
  | Some (Js.Str s) => Some s
  | Some (Js.Inherited member) =>
      if decide (member = "__proto__") then Some "{}" else None
  | None => Some ""
  end.

Definition line (cols : list string) (record : Js.obj) : option (list string) :=
  mapM (field record) cols.

Definition write (record : Js.obj) (s : t) : t :=
  match failed s with
  | Some _ => s
  | None =>
      let cols :=
        match columns s with
        | Some c => c
        | None => Js.keys record
        end in
      let head :=
        if (records s =? 0)%nat && header s then [cols] else [] in
      match line cols record with
      | Some fields =>
          {| header := header s;
             columns := Some cols;
             records := S (records s);
             output := output s ++ head ++ [fields];
             failed := None |}
      | None =>
          {| header := header s;
             columns := Some cols;
             records := records s;
             output := output s ++ head;
             failed := Some "Invalid Casting Value" |}
      end
  end.

End Stringifier.

(** ** Job state of one upload (lines 72-84 and 101-105) *)

Record distinct_sets := {
  currentStation : Js.sset;
  receiverType : Js.sset;
  journeyType : Js.sset;
  receiveStatus : Js.sset
}.

Record job := {
  canonicalHeaders : option (list string);
  wroteHeader : bool;
  distinct : distinct_sets;
  preview : list Js.obj;
  csvStringifier : Stringifier.t
}.

Definition init_job : job :=
  {| canonicalHeaders := None;
     wroteHeader := false;
     distinct := {| currentStation := []; receiverType := [];
                    journeyType := []; receiveStatus := [] |};
     preview := [];
     csvStringifier := Stringifier.stringify true |}.

(** ** The parser callbacks *)

(** Line 120: [headers.filter(h => !DROP_HEADERS.has(h))]. *)
Definition keep_headers (headers : list string) : list string :=
  filter (λ h, h ∉ DROP_HEADERS) headers.

(** Line 122: the record [{h: h}] written in place of a header line. *)
Definition header_record (canonical : list string) : Js.obj :=
  Js.fromEntries (map (λ h, (h, Js.Str h)) canonical).

(** [parser.on('headers', ...)], lines 116-125.  An array, even an empty one,
    is truthy, so the guard only passes while the variable is still [null]. *)
Definition on_headers (headers : list string) (st : job) : job :=
  match canonicalHeaders st with
  | Some _ => st
  | None =>
      let canonical := keep_headers headers in
      {| canonicalHeaders := Some canonical;
         wroteHeader := true;
         distinct := distinct st;
         preview := preview st;
         csvStringifier :=
           Stringifier.write (header_record canonical) (csvStringifier st) |}
  end.

(** The read [row[h]] of a raw row: the field the row owns, else the member
    of [Object.prototype] of that name, else [undefined]. *)
Definition row_read (row : raw_row) (h : string) : option Js.value :=
  match row !! h with
  | Some v => Some (Js.Str v)
  | None =>
      if decide (h ∈ Js.prototype_members) then Some (Js.Inherited h) else None
  end.

(** Lines 132-135: the output row built over the canonical headers. *)
Definition project (canonical : list string) (row : raw_row) : Js.obj :=
  foldl
    (λ outRow h,
       Js.set h (match row_read row h with Some v => v | None => Js.Str "" end)
         outRow)
    [] canonical.

(** Lines 140-145. *)
Fixpoint pick (rowObj : raw_row) (possibleNames : list string) : string :=
  match possibleNames with
  | [] => ""
  | k :: rest =>
      match rowObj !! k with
      | Some v => if Js.truthy v then v else pick rowObj rest
      | None => pick rowObj rest
      end
  end.

(** Lines 148-151.  [Current Station] is no member of [Object.prototype], and
    under such a name the output row holds a string or nothing. *)
Definition currentStationVal (outRow : Js.obj) (row : raw_row) : string :=
  Js.or_else (Js.string_at "Current Station" outRow)
    (pick row ["Current Station"; "current station"; "current_station"]).

Definition receiverTypeVal (row : raw_row) : string :=
  pick row ["Receiver type"; "Receiver Type"; "receiver type";
            "receiver_type"; "Receiver type"].

Definition journeyTypeVal (row : raw_row) : string :=
  pick row ["Journey Type"; "Journey type"; "journey type"].

Definition receiveStatusVal (row : raw_row) : string :=
  pick row ["Receive Status"; "Receive status"; "receive status"].

(** [if (v) s.add(v)], lines 153-156. *)
Definition add_if (v : string) (s : Js.sset) : Js.sset :=
  if Js.truthy v then Js.add v s else s.

Definition collect (outRow : Js.obj) (row : raw_row) (d : distinct_sets)
  : distinct_sets :=
  {| currentStation := add_if (currentStationVal outRow row) (currentStation d);
     receiverType := add_if (receiverTypeVal row) (receiverType d);
     journeyType := add_if (journeyTypeVal row) (journeyType d);
     receiveStatus := add_if (receiveStatusVal row) (receiveStatus d) |}.

(** Line 159. *)
Definition push_preview (outRow : Js.obj) (p : list Js.obj) : list Js.obj :=
  if (length p <? PREVIEW_LIMIT)%nat then p ++ [outRow] else p.

(** [parser.on('data', ...)], lines 127-163. *)
Definition on_data (row : raw_row) (st : job) : job :=
  match canonicalHeaders st with
  | None => st
  | Some canonical =>
      let outRow := project canonical row in
      {| canonicalHeaders := canonicalHeaders st;
         wroteHeader := wroteHeader st;
         distinct := collect outRow row (distinct st);
         preview := push_preview outRow (preview st);
         csvStringifier := Stringifier.write outRow (csvStringifier st) |}
  end.

Definition on_event (st : job) (ev : parser_event) : job :=
  match ev with
  | Headers headers => on_headers headers st
  | Data row => on_data row st
  end.

(** One entry piped through its parser until the stream ends. *)
Definition parse_entry (st : job) (entry : zip_entry) : job :=
  foldl on_event st (events entry).

(** What stops the loop: an ['error'] of the parser, which rejects the
    awaited promise (line 166), or an ['error'] of the entry stream, which
    nothing listens to. *)
Inductive abort :=
| Rejected (err : string)
| Unlistened (err : string).

(** The loop of lines 108-171: entries in order, each until its stream
    ends. *)
Fixpoint run_entries (st : job) (entries : list zip_entry)
  : job * option abort :=
  match entries with
  | [] => (st, None)
  | entry :: rest =>
      let st' := parse_entry st entry in
      match ending entry with
      | End => run_entries st' rest
      | Error err => (st', Some (Rejected err))
      | Broken err => (st', Some (Unlistened err))
      end
  end.

(** ** The upload handler, [POST /api/upload] (lines 63-202) *)

(** What [unzipper.Open.file(zipPath)] makes of the uploaded file. *)
Inductive open_result :=
| OpenFailed (err : string)
| Opened (files : list zip_entry).

(** How the file write stream ends: with ['finish'] once the stringifier is
    closed, every line on the disk; or with an ['error'], which is listened
    to only from line 177 on ([listening] tells whether it comes that late).
    At an error the first [n] lines are on the disk ([written = Some n]), or
    the file could not even be opened ([written = None]). *)
Inductive sink_end :=
| Finish
| SinkError (err : string) (listening : bool) (written : option nat).

(** The two directories: the uploaded zip at [zipPath], and the files of
    [DATA_DIR] by name, each as the lines written to it. *)
Record filesystem := {
  zip_exists : bool;
  data : gmap string (list (list string))
}.

(** The answer; [Crash] when an ['error'] event without listener ends the
    process before any answer. *)
Inductive response :=
| Json (preview : list Js.obj) (distinct : distinct_sets)
       (consolidatedPath : string)
| Status (code : nat) (error : string)
| Crash.

(** Line 183, with the default limit written out at its four call sites. *)
Definition toArrayLimit (s : Js.sset) (limit : nat) : list string :=
  take limit (filter (λ x, x ≠ "") s).

Definition distinct_payload (d : distinct_sets) : distinct_sets :=
  {| currentStation := toArrayLimit (currentStation d) 1000;
     receiverType := toArrayLimit (receiverType d) 1000;
     journeyType := toArrayLimit (journeyType d) 1000;
     receiveStatus := toArrayLimit (receiveStatus d) 1000 |}.

Definition consolidatedFilename (guid : string) : string :=
  "consolidated-" +:+ guid +:+ ".csv".

(** [fs.unlinkSync(zipPath)]. *)
Definition unlink_zip (fs : filesystem) : filesystem :=
  {| zip_exists := false; data := data fs |}.

(** What of the lines put out is on the disk when the write stream ends;
    nothing at all, not even an empty file, when the file was never opened. *)
Definition on_disk (finish : sink_end) (out : list (list string))
  : option (list (list string)) :=
  match finish with
  | Finish => Some out
  | SinkError _ _ (Some n) => Some (take n out)
  | SinkError _ _ None => None
  end.

(** [fs.createWriteStream(consolidatedPath, { flags: 'w' })] and what the
    stringifier piped into it. *)
Definition write_consolidated (guid : string) (finish : sink_end) (st : job)
    (fs : filesystem) : filesystem :=
  {| zip_exists := zip_exists fs;
     data :=
       match on_disk finish (Stringifier.output (csvStringifier st)) with
       | Some lines => <[consolidatedFilename guid := lines]> (data fs)
       | None => data fs
       end |}.

(** An ['error'] of the stringifier, of an entry stream, or of the write
    stream ahead of line 177 has no listener and ends the process: no answer,
    and the uploaded zip stays.  A rejection by the parser and an ['error'] of
    the write stream from line 177 on reach the [catch] of lines 196-201. *)
Definition upload_handler (guid : string) (req_file : option open_result)
    (finish : sink_end) (fs : filesystem) : response * filesystem :=
  match req_file with
  | None => (Status 400 "No file uploaded", fs)
  | Some (OpenFailed err) => (Status 500 err, unlink_zip fs)
  | Some (Opened files) =>
      match csvEntries files with
      | [] => (Status 400 "No CSV files found inside the zip", unlink_zip fs)
      | entries =>
          let '(st, aborted) := run_entries init_job entries in
          let fs' := write_consolidated guid finish st fs in
          match Stringifier.failed (csvStringifier st), aborted, finish with
          | Some _, _, _ => (Crash, fs')
          | None, Some (Unlistened _), _ => (Crash, fs')
          | None, _, SinkError _ false _ => (Crash, fs')
          | None, Some (Rejected err), _ => (Status 500 err, unlink_zip fs')
          | None, None, SinkError err true _ => (Status 500 err, unlink_zip fs')
          | None, None, Finish =>
              (Json (preview st) (distinct_payload (distinct st))
                 ("/data/" +:+ consolidatedFilename guid), unlink_zip fs')
          end
      end
  end.

(** ** The preview handler, [GET /api/preview] (lines 208-225) *)

(** node's [path] module on POSIX; an absolute path is kept as the list of
    its segments. *)
Module Path.

(** [s.split('/')]. *)
Fixpoint segments (s : string) : list string :=
  match s with
  | EmptyString => [""]
  | String c s' =>
      if Ascii.eqb c "/" then "" :: segments s'
      else match segments s' with
           | seg :: rest => String c seg :: rest
           | [] => [String c ""]
           end
  end.

(** [path.basename]: trailing slashes are ignored, then what follows the
    last slash is returned. *)
Definition basename (p : string) : string :=
  default "" (last (filter (λ seg, seg ≠ "") (segments p))).

(** One segment of [path.normalize] on an absolute path. *)
Definition normalize_step (acc : list string) (seg : string) : list string :=
  if decide (seg = "") then acc
  else if decide (seg = ".") then acc
  else if decide (seg = "..") then removelast acc
  else acc ++ [seg].

Definition normalize (segs : list string) : list string :=
  foldl normalize_step [] segs.

(** [path.join(dir, name)] for an absolute [dir]. *)
Definition join (dir : list string) (name : string) : list string :=
  normalize (dir ++ segments name).

(** [p] lies inside [dir]: below it, and not [dir] itself. *)
Definition inside (dir p : list string) : Prop :=
  ∃ rest, rest ≠ [] ∧ p = dir ++ rest.

End Path.

(** What the resolved path holds on disk: a directory, or a CSV file as the
    rows its parser yields and how its stream ends. *)
Inductive node :=
| IsDirectory
| CsvFile (rows : list raw_row) (ending : stream_end).

Inductive preview_response :=
| PreviewJson (rows : list raw_row)
| PreviewStatus (code : nat) (error : string)
| Unhandled (err : string).

Section Preview.

(** [process.cwd()], as segments. *)
Variable cwd : list string.
Variable disk : list string → option node.

(** Line 18: [path.resolve('./data')]. *)
Definition DATA_DIR : list string := cwd ++ ["data"].

(** Lines 213-214. *)
Definition resolve_preview (file : string) : list string :=
  let safe := Path.basename file in
  Path.join DATA_DIR safe.

(** Line 221, over all rows of the file. *)
Definition collect_preview (limit : Js.number) (rows : list raw_row)
  : list raw_row :=
  foldl
    (λ out row, if Js.length_lt (length out) limit then out ++ [row] else out)
    [] rows.

(** [limit] is what [Number] makes of the query parameter, [None] when the
    parameter is absent or empty.  A read error on the file stream itself has
    no listener (the handlers of lines 220-224 sit on the parser). *)
Definition preview_handler (file : option string) (limit : option Js.number)
  : preview_response :=
  let limit := default (Js.Num 50) limit in
  match file with
  | None => PreviewStatus 400 "file query param required"
  | Some file =>
      if negb (Js.truthy file)
      then PreviewStatus 400 "file query param required"
      else
        match disk (resolve_preview file) with
        | None => PreviewStatus 404 "file not found"
        | Some IsDirectory => Unhandled "EISDIR"
        | Some (CsvFile rows End) => PreviewJson (collect_preview limit rows)
        | Some (CsvFile rows (Error err)) => PreviewStatus 500 err
        | Some (CsvFile rows (Broken err)) => Unhandled err
        end
  end.

End Preview.

(** * Notions used in the statements *)

(** The cell the projection stores: what the read of the raw row finds, or
    the empty string when it finds nothing. *)
Definition cell (row : raw_row) (h : string) : Js.value :=
  match row_read row h with Some v => v | None => Js.Str "" end.

(** The job states the callbacks can be run in: the initial one, and any state
    reached from it by a parser event. *)
Inductive reachable : job → Prop :=
| reachable_init : reachable init_job
| reachable_event st ev : reachable st → reachable (on_event st ev).

(** The first ['headers'] event of a stream, if any. *)
Fixpoint first_headers (evs : list parser_event) : option (list string) :=
  match evs with
  | [] => None
  | Headers headers :: _ => Some headers
  | Data _ :: rest => first_headers rest
  end.

(** The four semantic fields. *)
Definition fields : list (distinct_sets → Js.sset) :=
  [currentStation; receiverType; journeyType; receiveStatus].

(** The uniform resolution of the current station: the raw-row aliases only,
    as for the other three fields. *)
Definition currentStation_uniform (row : raw_row) : string :=
  pick row ["Current Station"; "current station"; "current_station"].

Definition collect_uniform (row : raw_row) (d : distinct_sets) : distinct_sets :=
  {| currentStation := add_if (currentStation_uniform row) (currentStation d);
     receiverType := add_if (receiverTypeVal row) (receiverType d);
     journeyType := add_if (journeyTypeVal row) (journeyType d);
     receiveStatus := add_if (receiveStatusVal row) (receiveStatus d) |}.

(** The entries the loop parses: up to and including the first whose stream
    ends in an error. *)
Fixpoint processed (entries : list zip_entry) : list zip_entry :=
  match entries with
  | [] => []
  | entry :: rest =>
      match ending entry with
      | End => entry :: processed rest
      | Error _ | Broken _ => [entry]
      end
  end.

(** What stops the loop, if anything. *)
Fixpoint failure (entries : list zip_entry) : option abort :=
  match entries with
  | [] => None
  | entry :: rest =>
      match ending entry with
      | End => failure rest
      | Error err => Some (Rejected err)
      | Broken err => Some (Unlistened err)
      end
  end.

Definition all_events (entries : list zip_entry) : list parser_event :=
  concat (map events entries).

(** The projected rows the data callback builds over a stream of events,
    starting with the canonical header [canonical] (if any). *)
Fixpoint rows_out (canonical : option (list string)) (evs : list parser_event)
  : list Js.obj :=
  match evs with
  | [] => []
  | Headers headers :: rest =>
      match canonical with
      | Some _ => rows_out canonical rest
      | None => rows_out (Some (keep_headers headers)) rest
      end
  | Data row :: rest =>
      match canonical with
      | Some c => project c row :: rows_out canonical rest
      | None => rows_out canonical rest
      end
  end.

(** A job state with another preview. *)
Definition with_preview (p : list Js.obj) (st : job) : job :=
  {| canonicalHeaders := canonicalHeaders st;
     wroteHeader := wroteHeader st;
     distinct := distinct st;
     preview := p;
     csvStringifier := csvStringifier st |}.

(** What a job keeps apart from its preview. *)
Definition rest_of (st : job) : job := with_preview [] st.

(** Objects whose every value is its own key, as the header record. *)
Definition diagonal (o : Js.obj) : Prop := Forall (λ kv, kv.2 = Js.Str kv.1) o.

(** The columns of the output: the keys of the first record written. *)
Definition output_columns (headers : list string) : list string :=
  Js.keys (header_record (keep_headers headers)).

(** The sink once the canonical header is set: the columns are fixed and a
    record has been written. *)
Definition sink_started (cols : list string) (s : Stringifier.t) : Prop :=
  Stringifier.columns s = Some cols ∧ Stringifier.records s ≠ 0.

(** A record the sink can put out over the columns [cols]: every field can
    be cast. *)
Definition castable (cols : list string) (record : Js.obj) : Prop :=
  is_Some (Stringifier.line cols record).

(** The lines the sink puts out for a list of records written in turn: one
    per record, up to the first that cannot be cast. *)
Fixpoint rendered (cols : list string) (records : list Js.obj)
  : list (list string) :=
  match records with
  | [] => []
  | record :: rest =>
      match Stringifier.line cols record with
      | Some fields => fields :: rendered cols rest
      | None => []
      end
  end.

(** The records handed to [csvStringifier.write] over a stream of events:
    the header record once, at the first header event, then the projected
    rows. *)
Definition records_written (evs : list parser_event) : list Js.obj :=
  match first_headers evs with
  | None => []
  | Some headers => header_record (keep_headers headers) :: rows_out None evs
  end.

(** What ends the process before any answer: an ['error'] of the sink, of
    an entry stream, or of the write stream ahead of line 177. *)
Definition crashes (files : list zip_entry) (finish : sink_end) : Prop :=
  is_Some (Stringifier.failed
             (csvStringifier (run_entries init_job (csvEntries files)).1))
  ∨ (∃ err, failure (csvEntries files) = Some (Unlistened err))
  ∨ (∃ err written, finish = SinkError err false written).

(** The job answers with the JSON result. *)
Definition job_succeeds (guid : string) (files : list zip_entry)
    (finish : sink_end) (fs : filesystem) : Prop :=
  ∃ p d loc,
    (upload_handler guid (Some (Opened files)) finish fs).1 = Json p d loc.

(** The lines of the consolidated file after the job, if the file exists. *)
Definition consolidated_lines (guid : string) (files : list zip_entry)
    (finish : sink_end) (fs : filesystem) : option (list (list string)) :=
  data (upload_handler guid (Some (Opened files)) finish fs).2
    !! consolidatedFilename guid.

(** A segment that [path.normalize] keeps as it is. *)
Definition plain (seg : string) : Prop := seg ≠ "" ∧ seg ≠ "." ∧ seg ≠ "..".

Fixpoint no_slash (s : string) : bool :=
  match s with
  | EmptyString => true
  | String c s' => negb (Ascii.eqb c "/") && no_slash s'
  end.

(** A name the row has no non-empty value under. *)
Definition blank (row : raw_row) (k : string) : Prop :=
  row !! k = None ∨ row !! k = Some "".

(** The raw rows the data callback works on: those that come once a header
    event was seen; [known] tells whether one was seen before [evs]. *)
Fixpoint handled_rows (known : bool) (evs : list parser_event) : list raw_row :=
  match evs with
  | [] => []
  | Headers _ :: rest => handled_rows true rest
  | Data row :: rest =>
      if known then row :: handled_rows known rest else handled_rows known rest
  end.

(** Whether the job has its canonical header. *)
Definition header_known (st : job) : bool :=
  match canonicalHeaders st with
  | Some _ => true
  | None => false
  end.

(** The four fields, each with the value it takes from a raw row. *)
Definition resolvers : list ((distinct_sets → Js.sset) * (raw_row → string)) :=
  [ (currentStation, currentStation_uniform);
    (receiverType, receiverTypeVal);
    (journeyType, journeyTypeVal);
    (receiveStatus, receiveStatusVal) ].

(** * Example archives and requests *)

(** A raw row of a file whose own header is [C], [A], [D]. *)
Definition reordered_row : raw_row := {[ "C" := "3"; "A" := "1"; "D" := "4" ]}.

Definition short_row : raw_row := {[ "A" := "1"; "C" := "3" ]}.

Definition first_csv : zip_entry :=
  {| path := "export/first.csv"; type := File;
     events := [Headers ["A"; "B"; "C"; "Status"];
                Data {[ "A" := "1"; "B" := "2"; "C" := "3"; "Status" := "ok" ]}];
     ending := End |}.

Definition second_csv : zip_entry :=
  {| path := "export/second.CSV"; type := File;
     events := [Headers ["A"; "C"; "B"; "D"];
                Data {[ "A" := "4"; "C" := "6"; "B" := "5"; "D" := "7" ]}];
     ending := End |}.

Definition station_row : raw_row :=
  {[ "A" := "9"; "Current Station" := "Hub 7" ]}.

Definition blank_status_csv : zip_entry :=
  {| path := "third.csv"; type := File;
     events := [Headers ["A"; "Receive Status"];
                Data {[ "A" := "1"; "Receive Status" := "" ]};
                Data {[ "A" := "2"; "Receive Status" := "Received" ]};
                Data {[ "A" := "3" ]}];
     ending := End |}.

(** An entry of [n] identical data rows under the headers [A], [Status]. *)
Definition bulk_csv (n : nat) : zip_entry :=
  {| path := "bulk.csv"; type := File;
     events := Headers ["A"; "Status"]
               :: replicate n (Data {[ "A" := "1"; "Status" := "ok" ]});
     ending := End |}.

(** The job state after two entries of 30 rows each. *)
Definition bulk_job : job := (run_entries init_job [bulk_csv 30; bulk_csv 30]).1.

Definition no_csv_archive : list zip_entry :=
  [ {| path := "docs/"; type := Directory; events := []; ending := End |};
    {| path := "docs/readme.txt"; type := File; events := []; ending := End |};
    {| path := "old.csv/"; type := Directory; events := []; ending := End |};
    {| path := "data.csv.bak"; type := File; events := []; ending := End |} ].

Definition fresh_fs : filesystem := {| zip_exists := true; data := ∅ |}.


(** A file [A,valueOf] whose second data line has one field only. *)
Definition prototype_csv : zip_entry :=
  {| path := "report.csv"; type := File;
     events := [Headers ["A"; "valueOf"];
                Data {[ "A" := "1"; "valueOf" := "5" ]};
                Data {[ "A" := "2" ]}];
     ending := End |}.

Definition app_cwd : list string := ["srv"; "app"].

(** A disk with the working directory, the data directory in it, and one
    consolidated file. *)
Definition app_disk (p : list string) : option node :=
  if decide (p = ["srv"; "app"]) then Some IsDirectory
  else if decide (p = ["srv"; "app"; "data"]) then Some IsDirectory
  else if decide (p = ["srv"; "app"; "data"; "consolidated-g.csv"])
       then Some (CsvFile [ {[ "A" := "1" ]}; {[ "A" := "2" ]} ] End)
  else None.

Definition alias_row : raw_row :=
  {[ "Receiver type" := ""; "receiver_type" := "Hub"; "A" := "1" ]}.

(** A first file without any line, then [first_csv]. *)
Definition empty_csv : zip_entry :=
  {| path := "empty.csv"; type := File; events := []; ending := End |}.

Definition journey_row : raw_row :=
  {[ "A" := "1"; "Journey Type" := "Forward"; "Receive Status" := "Received" ]}.

(** Three rows of a consolidated file. *)
Definition three_rows : list raw_row :=
  [ {[ "A" := "1" ]}; {[ "A" := "2" ]}; {[ "A" := "3" ]} ].

Definition rows_disk (p : list string) : option node :=
  if decide (p = ["srv"; "app"; "data"; "out.csv"])
  then Some (CsvFile three_rows End)
  else None.

(** * Properties *)

(** ** Objects *)

Lemma get_define_eq k v (o : Js.obj) : Js.get k (Js.define k v o) = Some v.
Proof.
  induction o as [|[k' v'] o IH]; simpl.
  - by rewrite decide_True.
  - destruct (decide (k = k')); simpl; [by rewrite decide_True|].
    destruct (Js.before k k'); simpl; [by rewrite decide_True|].
    by rewrite decide_False.
Qed.

Lemma get_define_ne k k' v (o : Js.obj) :
  k ≠ k' → Js.get k' (Js.define k v o) = Js.get k' o.
Proof.
  intros Hne. induction o as [|[k0 v0] o IH]; simpl.
  - by rewrite decide_False.
  - destruct (decide (k = k0)) as [->|]; simpl.
    + by rewrite !decide_False.
    + destruct (Js.before k k0); simpl.
      * by rewrite (decide_False (P := k' = k)).
      * by destruct (decide (k' = k0)).
Qed.

Lemma keys_define_elem k v (o : Js.obj) k' :
  k' ∈ Js.keys (Js.define k v o) ↔ k' = k ∨ k' ∈ Js.keys o.
Proof.
  unfold Js.keys. induction o as [|[k0 v0] o IH]; simpl.
  - rewrite list_elem_of_singleton, elem_of_nil. tauto.
  - destruct (decide (k = k0)) as [->|]; simpl.
    + rewrite !elem_of_cons. tauto.
    + destruct (Js.before k k0); simpl.
      * rewrite !elem_of_cons. tauto.
      * rewrite !elem_of_cons, IH. tauto.
Qed.

Lemma get_set_eq k v (o : Js.obj) :
  k ≠ "__proto__" → Js.get k (Js.set k v o) = Some v.
Proof. intros Hk. unfold Js.set. rewrite decide_False by done. apply get_define_eq. Qed.

Lemma get_set_ne k k' v (o : Js.obj) :
  k ≠ k' → Js.get k' (Js.set k v o) = Js.get k' o.
Proof.
  intros Hne. unfold Js.set. case_decide; [done|]. by apply get_define_ne.
Qed.

Lemma keys_set_elem k v (o : Js.obj) k' :
  k' ∈ Js.keys (Js.set k v o)
  ↔ (k' = k ∧ k ≠ "__proto__") ∨ k' ∈ Js.keys o.
Proof.
  unfold Js.set. case_decide as Hk; [tauto|].
  rewrite keys_define_elem. tauto.
Qed.

Lemma get_None_keys k (o : Js.obj) : Js.get k o = None ↔ k ∉ Js.keys o.
Proof.
  induction o as [|[k' v'] o IH]; simpl.
  - split; [intros _; apply not_elem_of_nil | done].
  - destruct (decide (k = k')) as [->|Hne].
    + split; [done|]. intros []. apply elem_of_cons; by left.
    + rewrite IH. unfold Js.keys. rewrite not_elem_of_cons. tauto.
Qed.

(** ** Row projection *)

Lemma proto_member : "__proto__" ∈ Js.prototype_members.
Proof. unfold Js.prototype_members. rewrite !elem_of_cons. tauto. Qed.

Lemma project_snoc canonical h row :
  project (canonical ++ [h]) row = Js.set h (cell row h) (project canonical row).
Proof. unfold project. by rewrite foldl_app. Qed.

Lemma project_get_in canonical row h :
  h ∈ canonical → h ≠ "__proto__" →
  Js.get h (project canonical row) = Some (cell row h).
Proof.
  intros Hin Hproto. induction canonical as [|x canonical IH] using rev_ind.
  - by apply elem_of_nil in Hin.
  - rewrite project_snoc.
    destruct (decide (x = h)) as [->|Hne]; [by apply get_set_eq|].
    rewrite get_set_ne; [|done]. apply IH.
    apply elem_of_app in Hin as [?|Hin%list_elem_of_singleton]; congruence.
Qed.

Lemma project_keys_elem canonical row k :
  k ∈ Js.keys (project canonical row) ↔ k ∈ canonical ∧ k ≠ "__proto__".
Proof.
  induction canonical as [|x canonical IH] using rev_ind.
  - simpl. rewrite !elem_of_nil. tauto.
  - rewrite project_snoc, keys_set_elem, elem_of_app, list_elem_of_singleton, IH.
    split; [intros [[-> ?]|[? ?]]; tauto|].
    intros [[?| ->] ?]; tauto.
Qed.

Lemma project_keys_in canonical row k :
  k ∈ Js.keys (project canonical row) → k ∈ canonical.
Proof. rewrite project_keys_elem. tauto. Qed.

Lemma project_get_absent canonical row k :
  k ∉ canonical → Js.get k (project canonical row) = None.
Proof. intros Hk. apply get_None_keys. by intros ?%project_keys_in. Qed.

Lemma project_proto canonical row :
  Js.get "__proto__" (project canonical row) = None.
Proof. apply get_None_keys. rewrite project_keys_elem. tauto. Qed.

(** What the output row owns under a name is what the read of the raw row
    finds there. *)
Lemma project_get_cell canonical row k v :
  Js.get k (project canonical row) = Some v → v = cell row k.
Proof.
  intros Hget.
  destruct (decide (k ∈ canonical)) as [Hin|Hnin];
    [|by rewrite project_get_absent in Hget].
  destruct (decide (k = "__proto__")) as [->|Hproto];
    [by rewrite project_proto in Hget|].
  rewrite project_get_in in Hget by done. congruence.
Qed.

(** Under a name that is no member of [Object.prototype] the output row
    owns a string. *)
Lemma project_own_string canonical row k v :
  k ∉ Js.prototype_members →
  Js.get k (project canonical row) = Some v →
  v = Js.Str (match row !! k with Some s => s | None => "" end).
Proof.
  intros Hk Hget. rewrite (project_get_cell _ _ _ _ Hget).
  unfold cell, row_read. destruct (row !! k); [done|].
  by rewrite decide_False.
Qed.

Lemma project_ext canonical (row row' : raw_row) :
  (∀ h, h ∈ canonical → row !! h = row' !! h) →
  project canonical row = project canonical row'.
Proof.
  induction canonical as [|x canonical IH] using rev_ind; [done|].
  intros Hagree. rewrite !project_snoc. unfold cell, row_read.
  rewrite (Hagree x) by (apply elem_of_app; right; by apply list_elem_of_singleton).
  f_equal. apply IH. intros h Hh. apply Hagree, elem_of_app. by left.
Qed.

(** For canonical names none of which is a member of [Object.prototype], the
    projection stores under every canonical name the raw value, or the empty
    string when the row has none; its keys are the canonical names; and it
    depends on the raw row only through its values at the canonical names. *)
Lemma project_ordinary_names (canonical : list string) (row : raw_row) :
  Forall (λ h, h ∉ Js.prototype_members) canonical →
  (∀ h, h ∈ canonical →
        Js.get h (project canonical row)
        = Some (Js.Str (match row !! h with Some v => v | None => "" end)))
  ∧ (∀ k, k ∈ Js.keys (project canonical row) ↔ k ∈ canonical)
  ∧ (∀ row' : raw_row,
        (∀ h, h ∈ canonical → row' !! h = row !! h) →
        project canonical row' = project canonical row).
Proof.
  intros Hplain. rewrite Forall_forall in Hplain.
  assert (∀ h, h ∈ canonical → h ≠ "__proto__") as Hproto.
  { intros h Hh ->. apply (Hplain _ Hh), proto_member. }
  split_and!.
  - intros h Hin. rewrite project_get_in by auto.
    unfold cell, row_read. destruct (row !! h); [done|].
    by rewrite decide_False by auto.
  - intros k. rewrite project_keys_elem. split; [tauto|]. auto.
  - intros row' Hagree. by apply project_ext.
Qed.

(** Under a canonical name that is a member of [Object.prototype] and that
    the raw row does not own, the output row holds the inherited member. *)
Lemma project_inherited canonical (row : raw_row) h :
  h ∈ canonical → h ∈ Js.prototype_members → h ≠ "__proto__" →
  row !! h = None →
  Js.get h (project canonical row) = Some (Js.Inherited h).
Proof.
  intros Hin Hmember Hproto Hrow. rewrite project_get_in by done.
  unfold cell, row_read. rewrite Hrow. by rewrite decide_True.
Qed.

(** C5 on the code: the read [row[h]] of line 134 goes through the prototype
    chain.  For the canonical header [A], [valueOf] and a row that has a
    field under [A] only, the output row holds under [valueOf] the function
    inherited from [Object.prototype], not the empty string; handed to the
    stringifier it cannot be cast, and the ['error'] of the stringifier, which
    nothing listens to, ends the job without an answer.  For the canonical
    header [A], [__proto__] the assignment of line 134 makes no own property,
    so the output row lacks the canonical name [__proto__]. *)
Theorem project_reads_prototype :
  project ["A"; "valueOf"] {[ "A" := "2" ]}
  = [("A", Js.Str "2"); ("valueOf", Js.Inherited "valueOf")]
  ∧ Js.get "valueOf" (project ["A"; "valueOf"] {[ "A" := "2" ]})
    ≠ Some (Js.Str "")
  ∧ Js.keys (project ["A"; "__proto__"] {[ "A" := "2" ]}) = ["A"]
  ∧ canonicalHeaders (run_entries init_job [prototype_csv]).1
    = Some ["A"; "valueOf"]
  ∧ Stringifier.failed (csvStringifier (run_entries init_job [prototype_csv]).1)
    = Some "Invalid Casting Value"
  ∧ (upload_handler "g" (Some (Opened [prototype_csv])) Finish fresh_fs).1
    = Crash.
Proof.
  split_and!; try (vm_compute; reflexivity).
  vm_compute. discriminate.
Qed.

(** ** Job states and the canonical header *)

#[local] Hint Constructors reachable : core.

Lemma reachable_events st evs :
  reachable st → reachable (foldl on_event st evs).
Proof.
  revert st. induction evs as [|ev evs IH]; intros st Hst; simpl; auto.
Qed.

Lemma reachable_parse_entry st entry :
  reachable st → reachable (parse_entry st entry).
Proof. apply reachable_events. Qed.

Lemma reachable_run_entries st entries :
  reachable st → reachable (run_entries st entries).1.
Proof.
  revert st. induction entries as [|e entries IH]; intros st Hst; simpl; [done|].
  destruct (ending e); [apply IH|..]; by apply reachable_parse_entry.
Qed.

Lemma on_event_frozen st ev canonical :
  canonicalHeaders st = Some canonical →
  canonicalHeaders (on_event st ev) = Some canonical.
Proof.
  intros Hc. destruct ev as [headers|row]; simpl.
  - unfold on_headers. by rewrite Hc.
  - unfold on_data. by rewrite Hc.
Qed.

Lemma events_frozen st evs canonical :
  canonicalHeaders st = Some canonical →
  canonicalHeaders (foldl on_event st evs) = Some canonical.
Proof.
  revert st. induction evs as [|ev evs IH]; intros st Hc; simpl; [done|].
  by apply IH, on_event_frozen.
Qed.

Lemma entries_frozen st entries canonical :
  canonicalHeaders st = Some canonical →
  canonicalHeaders (foldl parse_entry st entries) = Some canonical.
Proof.
  revert st. induction entries as [|e entries IH]; intros st Hc; simpl; [done|].
  by apply IH, events_frozen.
Qed.

Lemma run_entries_frozen st entries canonical :
  canonicalHeaders st = Some canonical →
  canonicalHeaders (run_entries st entries).1 = Some canonical.
Proof.
  revert st. induction entries as [|e entries IH]; intros st Hc; simpl; [done|].
  destruct (ending e); [apply IH|..]; by apply events_frozen.
Qed.

Lemma events_first_headers st evs :
  canonicalHeaders st = None →
  canonicalHeaders (foldl on_event st evs) = keep_headers <$> first_headers evs.
Proof.
  revert st. induction evs as [|[headers|row] evs IH]; intros st Hc; simpl.
  - done.
  - apply events_frozen. unfold on_headers. by rewrite Hc.
  - apply IH. unfold on_data. by rewrite Hc.
Qed.

(** Whatever canonical header a job has was cut from some header list by the
    drop filter. *)
Lemma reachable_canonical st canonical :
  reachable st → canonicalHeaders st = Some canonical →
  ∃ headers, canonical = keep_headers headers.
Proof.
  induction 1 as [|st ev Hst IH]; [done|].
  destruct (canonicalHeaders st) as [c|] eqn:Hc.
  - rewrite (on_event_frozen _ _ _ Hc). intros [= <-]. by apply IH.
  - destruct ev as [headers|row]; simpl.
    + unfold on_headers. rewrite Hc. simpl. intros [= <-]. by exists headers.
    + unfold on_data. rewrite Hc. congruence.
Qed.

(** C1: when the first CSV entry of a job emits the header list [H], the
    canonical header is [H] without the members of the drop-set, in the order
    of [H]; it is in place once that entry is parsed and is still the same
    after any number of later entries, and no entry's own headers change a
    canonical header that is already set. *)
Theorem canonical_header_first_entry
    (first : zip_entry) (later : list zip_entry) (H : list string) :
  first_headers (events first) = Some H →
  let canonical := filter (λ h, h ∉ DROP_HEADERS) H in
  canonical `sublist_of` H
  ∧ (∀ h, h ∈ canonical ↔ h ∈ H ∧ h ∉ DROP_HEADERS)
  ∧ canonicalHeaders (parse_entry init_job first) = Some canonical
  ∧ canonicalHeaders (foldl parse_entry init_job (first :: later)) = Some canonical
  ∧ canonicalHeaders (run_entries init_job (first :: later)).1 = Some canonical
  ∧ (∀ (st : job) (entry : zip_entry) (c : list string),
        canonicalHeaders st = Some c →
        canonicalHeaders (parse_entry st entry) = Some c).
Proof.
  intros Hfirst canonical.
  assert (canonicalHeaders (parse_entry init_job first) = Some canonical) as Hc.
  { unfold parse_entry. rewrite events_first_headers by done. by rewrite Hfirst. }
  split_and!.
  - apply sublist_filter.
  - intros h. unfold canonical. rewrite list_elem_of_filter. tauto.
  - done.
  - simpl. by apply entries_frozen.
  - simpl. destruct (ending first); [by apply run_entries_frozen | done..].
  - intros st entry c. apply events_frozen.
Qed.

Lemma canonical_header_first_entry_witness :
  canonicalHeaders (run_entries init_job [first_csv; second_csv]).1
  = Some ["A"; "B"; "C"].
Proof.
  pose proof (canonical_header_first_entry first_csv [second_csv]
                ["A"; "B"; "C"; "Status"] eq_refl) as (_ & _ & _ & _ & Hrun & _).
  rewrite Hrun. vm_compute. reflexivity.
Defined.

(** ** Distinct-value collectors *)

Lemma current_station_dropped : "Current Station" ∈ DROP_HEADERS.
Proof. apply (bool_decide_unpack _). vm_compute. exact I. Qed.

Lemma current_station_not_kept headers :
  "Current Station" ∉ keep_headers headers.
Proof.
  unfold keep_headers. rewrite list_elem_of_filter.
  intros [Hkeep _]. apply Hkeep, current_station_dropped.
Qed.

(** C10: in every job state the callbacks run in, the current-station value
    taken from the projected row first and the raw-row aliases second is the
    plain raw-row alias resolution: [Current Station] is in the drop-set, so
    the projected row never has that key, and the collectors are updated
    exactly as by the uniform rule. *)
Theorem current_station_uniform_resolution
    (st : job) (canonical : list string) (row : raw_row) :
  reachable st →
  canonicalHeaders st = Some canonical →
  ("Current Station" ∉ canonical)
  ∧ Js.get "Current Station" (project canonical row) = None
  ∧ currentStationVal (project canonical row) row
    = pick row ["Current Station"; "current station"; "current_station"]
  ∧ distinct (on_data row st) = collect_uniform row (distinct st).
Proof.
  intros Hst Hc.
  destruct (reachable_canonical _ _ Hst Hc) as [headers ->].
  pose proof (current_station_not_kept headers) as Hnot.
  assert (Js.get "Current Station" (project (keep_headers headers) row) = None)
    as Hget.
  { by apply project_get_absent. }
  split_and!; [done | done | |].
  - unfold currentStationVal, Js.string_at. by rewrite Hget.
  - unfold on_data. rewrite Hc. simpl. unfold collect, collect_uniform.
    f_equal. unfold currentStationVal, currentStation_uniform, Js.string_at.
    by rewrite Hget.
Qed.

Lemma current_station_uniform_resolution_witness :
  currentStationVal (project ["A"; "B"; "C"] station_row) station_row = "Hub 7"
  ∧ currentStation (distinct (on_data station_row (parse_entry init_job first_csv)))
    = ["Hub 7"].
Proof.
  assert (reachable (parse_entry init_job first_csv)) as Hst
    by apply reachable_parse_entry, reachable_init.
  destruct (current_station_uniform_resolution (parse_entry init_job first_csv)
              ["A"; "B"; "C"] station_row Hst eq_refl)
    as (_ & _ & Hval & Hcollect).
  split.
  - rewrite Hval. vm_compute. reflexivity.
  - rewrite Hcollect. vm_compute. reflexivity.
Defined.

Lemma add_if_elem v (s : Js.sset) x :
  x ∈ add_if v s ↔ x ∈ s ∨ (x = v ∧ v ≠ "").
Proof.
  unfold add_if, Js.truthy, Js.add.
  destruct (String.eqb_spec v "") as [->|Hne]; simpl.
  - split; [by left | intros [?|[_ ?]]; done].
  - case_decide as Hin.
    + split; [tauto | intros [?|[? _]]; by subst].
    + rewrite elem_of_app, list_elem_of_singleton. tauto.
Qed.

Lemma add_if_no_empty v (s : Js.sset) : "" ∉ s → "" ∉ add_if v s.
Proof. rewrite add_if_elem. intros Hs [?|[<- ?]]; done. Qed.

(** Case analysis on a membership [H : f ∈ fields]: one goal per field. *)
Ltac each_field H :=
  unfold fields in H; rewrite !elem_of_cons, elem_of_nil in H;
  destruct H as [->|[->|[->|[->|[]]]]].

Lemma collect_no_empty outRow row d f :
  f ∈ fields → "" ∉ f d → "" ∉ f (collect outRow row d).
Proof. intros Hf. each_field Hf; simpl; apply add_if_no_empty. Qed.

Lemma reachable_no_empty st f :
  reachable st → f ∈ fields → "" ∉ f (distinct st).
Proof.
  intros Hst Hf. induction Hst as [|st ev Hst IH].
  - each_field Hf; apply not_elem_of_nil.
  - destruct ev as [headers|row]; simpl.
    + unfold on_headers. by destruct (canonicalHeaders st).
    + unfold on_data. destruct (canonicalHeaders st); [|done].
      simpl. by apply collect_no_empty.
Qed.

Lemma toArrayLimit_length (s : Js.sset) limit :
  (length (toArrayLimit s limit) ≤ limit)%nat.
Proof. unfold toArrayLimit. rewrite length_take. lia. Qed.

Lemma toArrayLimit_no_empty (s : Js.sset) limit : "" ∉ toArrayLimit s limit.
Proof.
  unfold toArrayLimit. intros Hin%elem_of_take.
  destruct Hin as (i & Hi%list_elem_of_lookup_2 & _).
  apply list_elem_of_filter in Hi as [Hne _]. done.
Qed.

(** C7: in every job state, none of the four distinct-value sets holds the
    empty string (the values are strings, so [undefined] cannot be held
    either), a data event only ever adds a non-empty value, and the array
    returned for each field has at most 1000 elements, none of them empty. *)
Theorem distinct_sets_invariant (st : job) (f : distinct_sets → Js.sset) :
  reachable st → f ∈ fields →
  ("" ∉ f (distinct st))
  ∧ (∀ row x, x ∈ f (distinct (on_data row st)) → x ∈ f (distinct st) ∨ x ≠ "")
  ∧ (length (f (distinct_payload (distinct st))) ≤ 1000)%nat
  ∧ "" ∉ f (distinct_payload (distinct st)).
Proof.
  intros Hst Hf. split_and!.
  - by apply reachable_no_empty.
  - intros row x Hx.
    destruct (decide (x = "")) as [->|]; [|by right].
    exfalso. revert Hx.
    apply (reachable_no_empty (on_event st (Data row)) f); [|done].
    by apply reachable_event.
  - each_field Hf; apply toArrayLimit_length.
  - each_field Hf; apply toArrayLimit_no_empty.
Qed.

Lemma distinct_sets_invariant_witness :
  receiveStatus (distinct (parse_entry init_job blank_status_csv)) = ["Received"]
  ∧ ("" ∉ receiveStatus (distinct (parse_entry init_job blank_status_csv)))
  ∧ (length (receiveStatus
               (distinct_payload
                  (distinct (parse_entry init_job blank_status_csv))))
     ≤ 1000)%nat.
Proof.
  assert (reachable (parse_entry init_job blank_status_csv)) as Hst
    by apply reachable_parse_entry, reachable_init.
  assert (receiveStatus ∈ fields) as Hf.
  { unfold fields. rewrite !elem_of_cons. tauto. }
  destruct (distinct_sets_invariant (parse_entry init_job blank_status_csv)
              receiveStatus Hst Hf) as (Hno & _ & Hlen & _).
  split_and!; [vm_compute; reflexivity | exact Hno | exact Hlen].
Defined.

(** ** The entries a job gets through *)

Lemma run_entries_processed st entries :
  run_entries st entries = (foldl parse_entry st (processed entries), failure entries).
Proof.
  revert st. induction entries as [|e entries IH]; intros st; simpl; [done|].
  destruct (ending e); simpl; [apply IH | done..].
Qed.

Lemma parse_entries_events st entries :
  foldl parse_entry st entries = foldl on_event st (all_events entries).
Proof.
  revert st. induction entries as [|e entries IH]; intros st; simpl; [done|].
  unfold all_events. simpl. rewrite foldl_app. apply IH.
Qed.

(** ** The rows a job handles *)

Lemma push_preview_take outRow (p : list Js.obj) :
  (length p ≤ PREVIEW_LIMIT)%nat →
  push_preview outRow p = take PREVIEW_LIMIT (p ++ [outRow]).
Proof.
  intros Hlen. unfold push_preview.
  destruct (Nat.ltb_spec (length p) PREVIEW_LIMIT) as [Hlt|Hge].
  - rewrite take_ge; [done|]. rewrite length_app. simpl. lia.
  - rewrite take_app_le by lia. rewrite take_ge; [done | lia].
Qed.

Lemma push_preview_length outRow (p : list Js.obj) :
  (length p ≤ PREVIEW_LIMIT)%nat →
  (length (push_preview outRow p) ≤ PREVIEW_LIMIT)%nat.
Proof.
  intros Hlen. unfold push_preview.
  destruct (Nat.ltb_spec (length p) PREVIEW_LIMIT) as [Hlt|Hge]; [|done].
  rewrite length_app. simpl. lia.
Qed.

Lemma push_preview_full outRow (p : list Js.obj) :
  (PREVIEW_LIMIT ≤ length p)%nat → push_preview outRow p = p.
Proof.
  intros Hlen. unfold push_preview.
  destruct (Nat.ltb_spec (length p) PREVIEW_LIMIT) as [Hlt|Hge]; [lia | done].
Qed.

Lemma reachable_preview_length st :
  reachable st → (length (preview st) ≤ PREVIEW_LIMIT)%nat.
Proof.
  induction 1 as [|st ev Hst IH]; [simpl; lia|].
  destruct ev as [headers|row]; simpl.
  - unfold on_headers. by destruct (canonicalHeaders st).
  - unfold on_data. destruct (canonicalHeaders st); [|done].
    simpl. by apply push_preview_length.
Qed.

Lemma take_take_app {A} n (a b : list A) :
  take n (take n a ++ b) = take n (a ++ b).
Proof.
  destruct (Nat.le_gt_cases (length a) n) as [Hle|Hgt].
  - by rewrite (take_ge a n).
  - rewrite (take_app_le a b n) by lia.
    rewrite take_app_le by (rewrite length_take; lia).
    apply take_idemp.
Qed.

Lemma events_preview st evs :
  (length (preview st) ≤ PREVIEW_LIMIT)%nat →
  preview (foldl on_event st evs)
  = take PREVIEW_LIMIT (preview st ++ rows_out (canonicalHeaders st) evs).
Proof.
  revert st. induction evs as [|[headers|row] evs IH]; intros st Hlen; simpl.
  - rewrite app_nil_r, take_ge; done.
  - unfold on_headers at 1.
    destruct (canonicalHeaders st) as [c|] eqn:Hc.
    + rewrite IH by done. by rewrite Hc.
    + rewrite IH by done. done.
  - unfold on_data at 1.
    destruct (canonicalHeaders st) as [c|] eqn:Hc.
    + rewrite IH by (simpl; by apply push_preview_length). simpl.
      rewrite push_preview_take by done.
      rewrite take_take_app. by rewrite <- app_assoc.
    + rewrite IH by done. by rewrite Hc.
Qed.

Lemma events_preview_full st evs :
  (PREVIEW_LIMIT ≤ length (preview st))%nat →
  preview (foldl on_event st evs) = preview st.
Proof.
  revert st. induction evs as [|[headers|row] evs IH]; intros st Hlen; simpl.
  - done.
  - unfold on_headers at 1. destruct (canonicalHeaders st); by rewrite IH.
  - unfold on_data at 1. destruct (canonicalHeaders st); [|by rewrite IH].
    rewrite IH; simpl; by rewrite push_preview_full.
Qed.

Lemma on_event_rest_of st st' ev :
  rest_of st = rest_of st' → rest_of (on_event st ev) = rest_of (on_event st' ev).
Proof.
  unfold rest_of, with_preview. intros [= Hc Hw Hd Hs].
  destruct ev as [headers|row]; simpl.
  - unfold on_headers. rewrite Hc.
    destruct (canonicalHeaders st') eqn:Hc'; simpl; congruence.
  - unfold on_data. rewrite Hc.
    destruct (canonicalHeaders st') eqn:Hc'; simpl; congruence.
Qed.

Lemma events_rest_of st st' evs :
  rest_of st = rest_of st' →
  rest_of (foldl on_event st evs) = rest_of (foldl on_event st' evs).
Proof.
  revert st st'. induction evs as [|ev evs IH]; intros st st' Heq; simpl; [done|].
  by apply IH, on_event_rest_of.
Qed.

Lemma run_entries_rest_of st st' entries :
  rest_of st = rest_of st' →
  rest_of (run_entries st entries).1 = rest_of (run_entries st' entries).1
  ∧ (run_entries st entries).2 = (run_entries st' entries).2.
Proof.
  intros Heq. rewrite !run_entries_processed. simpl. split; [|done].
  rewrite !parse_entries_events. by apply events_rest_of.
Qed.

(** ** The consolidated output *)

Lemma get_Some_elem k v (o : Js.obj) : Js.get k o = Some v → (k, v) ∈ o.
Proof.
  induction o as [|[k' v'] o IH]; simpl; [done|].
  destruct (decide (k = k')) as [->|Hne].
  - intros [= ->]. apply elem_of_cons. by left.
  - intros Hget. apply elem_of_cons. right. by apply IH.
Qed.

Lemma get_is_Some_keys k (o : Js.obj) : k ∈ Js.keys o → is_Some (Js.get k o).
Proof.
  intros Hin. destruct (Js.get k o) eqn:Hget; [done|].
  by apply get_None_keys in Hget.
Qed.

Lemma define_diagonal k (o : Js.obj) :
  diagonal o → diagonal (Js.define k (Js.Str k) o).
Proof.
  unfold diagonal. induction 1 as [|[k' v'] o Hkv Ho IH]; simpl.
  - by repeat constructor.
  - destruct (decide (k = k')); [by constructor|].
    destruct (Js.before k k'); repeat constructor; done.
Qed.

Lemma header_record_diagonal canonical : diagonal (header_record canonical).
Proof.
  unfold header_record, Js.fromEntries.
  induction canonical as [|h canonical IH] using rev_ind; simpl.
  - constructor.
  - rewrite map_app, foldl_app. simpl. by apply define_diagonal.
Qed.

Lemma line_diagonal (o : Js.obj) :
  diagonal o → Stringifier.line (Js.keys o) o = Some (Js.keys o).
Proof.
  intros Hdiag. unfold Stringifier.line.
  apply mapM_Some_2, Forall_Forall2_diag, Forall_forall.
  intros k Hk.
  destruct (get_is_Some_keys k o Hk) as [v Hv].
  unfold Stringifier.field, Js.read. rewrite Hv.
  apply get_Some_elem in Hv.
  unfold diagonal in Hdiag. rewrite Forall_forall in Hdiag.
  pose proof (Hdiag (k, v) Hv) as Hkv. simpl in Hkv. by rewrite Hkv.
Qed.

Lemma header_record_keys_elem canonical k :
  k ∈ Js.keys (header_record canonical) ↔ k ∈ canonical.
Proof.
  unfold header_record, Js.fromEntries.
  induction canonical as [|h canonical IH] using rev_ind; [done|].
  rewrite map_app, foldl_app. simpl.
  rewrite keys_define_elem, IH, elem_of_app, list_elem_of_singleton. tauto.
Qed.

(** The first record written: the column names, twice. *)
Lemma write_header_record canonical :
  let cols := Js.keys (header_record canonical) in
  Stringifier.write (header_record canonical) (Stringifier.stringify true)
  = {| Stringifier.header := true;
       Stringifier.columns := Some cols;
       Stringifier.records := 1;
       Stringifier.output := [cols; cols];
       Stringifier.failed := None |}.
Proof.
  unfold Stringifier.write, Stringifier.stringify. simpl.
  by rewrite line_diagonal by apply header_record_diagonal.
Qed.

Lemma write_failed record s :
  is_Some (Stringifier.failed s) → Stringifier.write record s = s.
Proof. intros [err Herr]. unfold Stringifier.write. by rewrite Herr. Qed.

Lemma write_records record s :
  Stringifier.records s ≠ 0 →
  Stringifier.records (Stringifier.write record s) ≠ 0.
Proof.
  intros Hrec. unfold Stringifier.write.
  destruct (Stringifier.failed s); [done|].
  by destruct (Stringifier.line _ record).
Qed.

Lemma writes_failed records s :
  is_Some (Stringifier.failed s) →
  foldl (λ s record, Stringifier.write record s) s records = s.
Proof.
  intros Hfailed. induction records as [|record records IH]; simpl; [done|].
  by rewrite write_failed.
Qed.

Lemma write_started cols record s :
  sink_started cols s → Stringifier.failed s = None →
  match Stringifier.line cols record with
  | Some fields =>
      sink_started cols (Stringifier.write record s)
      ∧ Stringifier.failed (Stringifier.write record s) = None
      ∧ Stringifier.output (Stringifier.write record s)
        = Stringifier.output s ++ [fields]
  | None =>
      is_Some (Stringifier.failed (Stringifier.write record s))
      ∧ Stringifier.output (Stringifier.write record s) = Stringifier.output s
  end.
Proof.
  intros [Hcols Hrec] Hok. unfold Stringifier.write, sink_started.
  rewrite Hok, Hcols.
  destruct (Stringifier.line cols record) as [fields|]; simpl.
  - split_and!; [done.. |]. by destruct (Stringifier.records s).
  - split; [done|]. destruct (Stringifier.records s); [done|].
    simpl. by rewrite app_nil_r.
Qed.

(** The sink over a list of records, once it has its columns: it puts out the
    lines of the records up to the first that cannot be cast, and fails
    exactly when there is one. *)
Lemma writes_started cols records s :
  sink_started cols s → Stringifier.failed s = None →
  let s' := foldl (λ s record, Stringifier.write record s) s records in
  Stringifier.output s' = Stringifier.output s ++ rendered cols records
  ∧ Stringifier.columns s' = Some cols
  ∧ (Stringifier.failed s' = None ↔ Forall (castable cols) records).
Proof.
  revert s. induction records as [|record records IH]; intros s Hs Hok; simpl.
  - by rewrite app_nil_r; destruct Hs.
  - pose proof (write_started cols record s Hs Hok) as Hw.
    unfold castable at 1. rewrite Forall_cons.
    destruct (Stringifier.line cols record) as [fields|] eqn:Hline.
    + destruct Hw as (Hs' & Hok' & Hout).
      destruct (IH _ Hs' Hok') as (IHout & IHcols & IHfail).
      rewrite IHout, Hout, <- app_assoc. split_and!; [done.. |].
      rewrite IHfail.
      split; [by intros ?; split | by intros [_ ?]].
    + destruct Hw as (Hfailed & Hout).
      rewrite writes_failed by done. rewrite Hout, app_nil_r.
      split_and!; [done | |].
      * unfold Stringifier.write. rewrite Hok. destruct Hs as [-> _].
        by rewrite Hline.
      * destruct Hfailed as [err Herr]. rewrite Herr.
        split; [done | by intros [[? ?] _]].
Qed.

Lemma events_writes_started st canonical evs :
  canonicalHeaders st = Some canonical →
  csvStringifier (foldl on_event st evs)
  = foldl (λ s record, Stringifier.write record s) (csvStringifier st)
      (rows_out (Some canonical) evs).
Proof.
  revert st. induction evs as [|[headers|row] evs IH]; intros st Hc; simpl.
  - done.
  - unfold on_headers at 1. rewrite Hc. by apply IH.
  - unfold on_data at 1. rewrite Hc. by rewrite IH.
Qed.

Lemma events_writes evs :
  csvStringifier (foldl on_event init_job evs)
  = foldl (λ s record, Stringifier.write record s) (Stringifier.stringify true)
      (records_written evs).
Proof.
  unfold records_written.
  induction evs as [|[headers|row] evs IH]; simpl; [done | | exact IH].
  by erewrite events_writes_started.
Qed.

(** The lines of the consolidated file after any stream of events: nothing
    before the first header event; from then on the column names, the header
    record of line 122 rendered over those columns (the column names again),
    and one line per projected row, up to the first that cannot be cast. *)
Lemma events_output evs :
  let s := csvStringifier (foldl on_event init_job evs) in
  match first_headers evs with
  | None => s = Stringifier.stringify true
  | Some headers =>
      let cols := output_columns headers in
      Stringifier.output s = cols :: cols :: rendered cols (rows_out None evs)
      ∧ Stringifier.columns s = Some cols
      ∧ (Stringifier.failed s = None
         ↔ Forall (castable cols) (rows_out None evs))
  end.
Proof.
  cbn zeta. rewrite events_writes. unfold records_written.
  destruct (first_headers evs) as [headers|]; [|done].
  cbn [foldl]. rewrite write_header_record.
  apply (writes_started (output_columns headers)); [|done].
  split; done.
Qed.

Lemma run_entries_events entries :
  (run_entries init_job entries).1
  = foldl on_event init_job (all_events (processed entries)).
Proof.
  rewrite run_entries_processed. simpl. apply parse_entries_events.
Qed.

Lemma rows_out_known canonical evs :
  rows_out (Some canonical) evs = map (project canonical) (handled_rows true evs).
Proof.
  induction evs as [|[headers|row] evs IH]; simpl; [done | done | by rewrite IH].
Qed.

Lemma rows_out_handled evs :
  rows_out None evs
  = match first_headers evs with
    | None => []
    | Some headers =>
        map (project (keep_headers headers)) (handled_rows false evs)
    end.
Proof.
  induction evs as [|[headers|row] evs IH]; simpl; [done | | done].
  apply rows_out_known.
Qed.




Lemma rendered_castable_Forall2 cols records :
  Forall (castable cols) records →
  Forall2 (λ record fields, Stringifier.line cols record = Some fields)
    records (rendered cols records).
Proof.
  induction 1 as [|r records [fields Hr] Hrs IH]; simpl; [constructor|].
  rewrite Hr. by constructor.
Qed.

(** ** The upload handler, case by case *)

Ltac handler_cases files finish :=
  destruct (Stringifier.failed
              (csvStringifier (run_entries init_job (csvEntries files)).1)),
    (failure (csvEntries files)) as [[?|?]|], finish as [|? [|] [?|]].

Lemma failure_None_processed entries :
  failure entries = None → processed entries = entries.
Proof.
  induction entries as [|e entries IH]; simpl; [done|].
  destruct (ending e); [|done..]. intros Hf. by rewrite IH.
Qed.

Lemma failure_None_Forall entries :
  failure entries = None ↔ Forall (λ e, ending e = End) entries.
Proof.
  induction entries as [|e entries IH]; simpl; [done|].
  rewrite Forall_cons. destruct (ending e); [|split; [done | by intros [? _]]..].
  rewrite IH. tauto.
Qed.

Lemma upload_handler_entries guid files finish fs :
  csvEntries files ≠ [] →
  upload_handler guid (Some (Opened files)) finish fs
  = let st := (run_entries init_job (csvEntries files)).1 in
    let fs' := write_consolidated guid finish st fs in
    match Stringifier.failed (csvStringifier st), failure (csvEntries files),
          finish with
    | Some _, _, _ => (Crash, fs')
    | None, Some (Unlistened _), _ => (Crash, fs')
    | None, _, SinkError _ false _ => (Crash, fs')
    | None, Some (Rejected err), _ => (Status 500 err, unlink_zip fs')
    | None, None, SinkError err true _ => (Status 500 err, unlink_zip fs')
    | None, None, Finish =>
        (Json (preview st) (distinct_payload (distinct st))
           ("/data/" +:+ consolidatedFilename guid), unlink_zip fs')
    end.
Proof.
  intros Hne. unfold upload_handler.
  destruct (csvEntries files) as [|e entries] eqn:Hcsv; [done|].
  by rewrite run_entries_processed.
Qed.

(** Once there is a CSV entry, the consolidated file holds after the
    request, whatever its outcome, what the write stream got onto the disk;
    if the file was never opened, the path is as it was. *)
Lemma upload_handler_lines guid files finish fs :
  csvEntries files ≠ [] →
  consolidated_lines guid files finish fs
  = match on_disk finish
            (Stringifier.output
               (csvStringifier (run_entries init_job (csvEntries files)).1))
    with
    | Some lines => Some lines
    | None => data fs !! consolidatedFilename guid
    end.
Proof.
  intros Hne. unfold consolidated_lines.
  rewrite upload_handler_entries by done. cbn zeta.
  handler_cases files finish; simpl;
    by rewrite ?lookup_insert_eq.
Qed.

Lemma upload_handler_others guid files finish fs name :
  name ≠ consolidatedFilename guid →
  data (upload_handler guid (Some (Opened files)) finish fs).2 !! name
  = data fs !! name.
Proof.
  intros Hname.
  destruct (decide (csvEntries files = [])) as [Hnil|Hne].
  - unfold upload_handler. by rewrite Hnil.
  - rewrite upload_handler_entries by done. cbn zeta.
    handler_cases files finish; simpl; by rewrite ?lookup_insert_ne.
Qed.

Lemma on_disk_prefix finish out lines :
  on_disk finish out = Some lines → lines `prefix_of` out.
Proof.
  destruct finish as [|err listening [n|]]; simpl; intros [= <-];
    [done | apply prefix_take].
Qed.

(** ** Preview *)

(** C8: the preview of a job never holds more than 50 rows: it is the first
    50 projected rows of the entries the job gets through, in order; once it
    holds 50 rows no later entry changes it; every projected row is handed to
    the output sink whether or not the cap was hit; and the sink and the
    distinct-value sets evolve the same whatever the preview holds. *)
Theorem preview_capped (entries : list zip_entry) :
  let st := (run_entries init_job entries).1 in
  let rows := rows_out None (all_events (processed entries)) in
  (length (preview st) ≤ 50)%nat
  ∧ preview st = take 50 rows
  ∧ csvStringifier st
    = foldl (λ s record, Stringifier.write record s) (Stringifier.stringify true)
        (match first_headers (all_events (processed entries)) with
         | None => []
         | Some headers => header_record (keep_headers headers) :: rows
         end)
  ∧ (∀ (st0 : job) (later : list zip_entry),
       length (preview st0) = 50 →
       preview (run_entries st0 later).1 = preview st0)
  ∧ (∀ (st0 : job) (p : list Js.obj) (later : list zip_entry),
       csvStringifier (run_entries (with_preview p st0) later).1
       = csvStringifier (run_entries st0 later).1
       ∧ distinct (run_entries (with_preview p st0) later).1
         = distinct (run_entries st0 later).1
       ∧ (run_entries (with_preview p st0) later).2
         = (run_entries st0 later).2).
Proof.
  intros st rows. split_and!.
  - apply reachable_preview_length, reachable_run_entries, reachable_init.
  - unfold st, rows. rewrite run_entries_processed. simpl.
    rewrite parse_entries_events.
    rewrite events_preview by (simpl; lia). done.
  - unfold st, rows. rewrite run_entries_processed. simpl.
    rewrite parse_entries_events. apply events_writes.
  - intros st0 later Hfull. rewrite run_entries_processed. simpl.
    rewrite parse_entries_events. apply events_preview_full.
    change PREVIEW_LIMIT with 50. lia.
  - intros st0 p later.
    destruct (run_entries_rest_of (with_preview p st0) st0 later) as [Hrest Hfail];
      [done|].
    unfold rest_of, with_preview in Hrest.
    injection Hrest as _ _ Hd Hs. done.
Qed.

Lemma preview_capped_witness :
  length (preview bulk_job) = 50
  ∧ Stringifier.records (csvStringifier bulk_job) = 61
  ∧ preview (run_entries bulk_job [bulk_csv 5]).1 = preview bulk_job.
Proof.
  destruct (preview_capped [bulk_csv 30; bulk_csv 30])
    as (_ & Hprev & Hout & Hfull & _).
  unfold bulk_job.
  assert (length (preview (run_entries init_job [bulk_csv 30; bulk_csv 30]).1)
          = 50) as Hlen.
  { rewrite Hprev. vm_compute. reflexivity. }
  split_and!.
  - exact Hlen.
  - rewrite Hout. vm_compute. reflexivity.
  - apply Hfull. exact Hlen.
Defined.

(** ** Archives without CSV entries *)

Lemma filter_none {A} (f : A → bool) (l : list A) :
  (∀ x, x ∈ l → f x = false) → List.filter f l = [].
Proof.
  induction l as [|x l IH]; intros Hall; simpl; [done|].
  rewrite (Hall x) by (apply elem_of_cons; by left).
  apply IH. intros y Hy. apply Hall, elem_of_cons. by right.
Qed.

(** C6: when no entry of the archive is a regular file whose name ends in
    [.csv] (case-insensitively), the filtered list is empty, the handler
    answers with status 400 and the message of line 97, and the files of the
    output directory are what they were: nothing is created at the
    consolidated path.  The uploaded zip is removed. *)
Theorem no_csv_entries
    (guid : string) (files : list zip_entry) (finish : sink_end)
    (fs : filesystem) :
  (∀ f, f ∈ files →
        ¬ (type f = File
           ∧ Js.endsWith (Js.toLowerCase (path f)) ".csv" = true)) →
  csvEntries files = []
  ∧ (upload_handler guid (Some (Opened files)) finish fs).1
    = Status 400 "No CSV files found inside the zip"
  ∧ data (upload_handler guid (Some (Opened files)) finish fs).2 = data fs
  ∧ zip_exists (upload_handler guid (Some (Opened files)) finish fs).2 = false.
Proof.
  intros Hnone.
  assert (csvEntries files = []) as Hempty.
  { apply filter_none. intros f Hf. unfold is_csv_entry.
    destruct (Js.endsWith _ _) eqn:Hends; [|by rewrite andb_false_r].
    rewrite andb_true_r.
    destruct (bool_decide (type f = File)) eqn:Htype; [|by rewrite andb_false_r].
    apply bool_decide_eq_true in Htype. destruct (Hnone f Hf). done. }
  unfold upload_handler. rewrite Hempty. done.
Qed.

Lemma no_csv_entries_witness :
  upload_handler "g" (Some (Opened no_csv_archive)) Finish fresh_fs
  = (Status 400 "No CSV files found inside the zip",
     {| zip_exists := false; data := ∅ |}).
Proof.
  assert (∀ f, f ∈ no_csv_archive →
               ¬ (type f = File
                  ∧ Js.endsWith (Js.toLowerCase (path f)) ".csv" = true))
    as Hnone.
  { intros f Hf. unfold no_csv_archive in Hf.
    rewrite !elem_of_cons, elem_of_nil in Hf.
    destruct Hf as [->|[->|[->|[->|[]]]]]; simpl; intros [? ?]; discriminate. }
  destruct (no_csv_entries "g" no_csv_archive Finish fresh_fs Hnone)
    as (_ & Hresp & Hdata & Hzip).
  destruct (upload_handler "g" (Some (Opened no_csv_archive)) Finish fresh_fs)
    as [resp [z d]].
  simpl in *. by subst.
Defined.

(** ** Malformed entries *)


Lemma job_succeeds_iff guid files finish fs :
  job_succeeds guid files finish fs
  ↔ csvEntries files ≠ []
    ∧ Forall (λ e, ending e = End) (csvEntries files)
    ∧ Stringifier.failed
        (csvStringifier (run_entries init_job (csvEntries files)).1) = None
    ∧ finish = Finish.
Proof.
  unfold job_succeeds.
  destruct (decide (csvEntries files = [])) as [Hnil|Hne].
  { unfold upload_handler. rewrite Hnil. simpl.
    split; [by intros (? & ? & ? & ?) | by intros [? _]]. }
  rewrite upload_handler_entries by done. cbn zeta.
  rewrite <- failure_None_Forall.
  handler_cases files finish; simpl;
    (split; [intros (? & ? & ? & ?) | intros (? & ? & ? & ?)]); try done.
  by eexists _, _, _.
Qed.


(** A projected row can be cast when no canonical name is a member of
    [Object.prototype]; so the sink of a job whose first header has no such
    name never fails. *)
Lemma ordinary_castable canonical row :
  Forall (λ h, h ∉ Js.prototype_members) canonical →
  castable (Js.keys (header_record canonical)) (project canonical row).
Proof.
  intros Hplain. unfold castable, Stringifier.line.
  apply mapM_is_Some, Forall_forall. intros c Hc.
  apply (proj1 (header_record_keys_elem canonical c)) in Hc.
  destruct (project_ordinary_names canonical row Hplain) as (Hget & _).
  simpl. unfold Stringifier.field, Js.read. by rewrite (Hget c Hc).
Qed.

Lemma ordinary_header_no_failure entries :
  (∀ headers,
     first_headers (all_events (processed entries)) = Some headers →
     Forall (λ h, h ∉ Js.prototype_members) (keep_headers headers)) →
  Stringifier.failed (csvStringifier (run_entries init_job entries).1) = None.
Proof.
  intros Hplain. rewrite run_entries_events.
  pose proof (events_output (all_events (processed entries))) as Hout.
  destruct (first_headers _) as [headers|] eqn:Hfirst; cbn zeta in Hout.
  - destruct Hout as (_ & _ & Hfail). apply Hfail.
    rewrite rows_out_handled, Hfirst.
    apply Forall_forall. intros record Hin%list_elem_of_In.
    apply in_map_iff in Hin as (row & <- & _).
    by apply ordinary_castable, Hplain.
  - by rewrite Hout.
Qed.



(** ** The failure path *)

(** C3 as stated fails: the write stream raises its error once the handler
    waits for it (line 177), when one of the three lines has got onto the
    disk.  The job is answered with status 500, and the file of one line is
    still at the consolidated path: the [catch] of lines 196-201 removes the
    uploaded zip only. *)
Lemma sink_error_leaves_partial_file :
  upload_handler "g" (Some (Opened [first_csv]))
    (SinkError "ENOSPC" true (Some 1)) fresh_fs
  = (Status 500 "ENOSPC",
     {| zip_exists := false;
        data := {[ "consolidated-g.csv" := [["A"; "B"; "C"]] ]} |})
  ∧ ¬ job_succeeds "g" [first_csv] (SinkError "ENOSPC" true (Some 1)) fresh_fs
  ∧ consolidated_lines "g" [first_csv] (SinkError "ENOSPC" true (Some 1))
      fresh_fs
    = Some [["A"; "B"; "C"]].
Proof.
  split_and!.
  - vm_compute. reflexivity.
  - intros (p & d & loc & Hjson). vm_compute in Hjson. discriminate.
  - vm_compute. reflexivity.
Qed.

(** C3, corrected: a job that does not succeed once output writing has begun
    (there is a CSV entry, so line 101 has been run) never removes the
    consolidated file.  If the write stream could open the file, the file is
    at the consolidated path, holding a prefix of the lines the sink put out;
    if it could not, the path is as it was before the request.  No other file
    of the output directory is touched.  Either the job is answered with
    status 500 and only the uploaded zip is removed, or an ['error'] event
    without listener ends the process and nothing is removed at all. *)
Theorem failed_job_leaves_consolidated_file
    (guid : string) (files : list zip_entry) (finish : sink_end)
    (fs : filesystem) :
  csvEntries files ≠ [] →
  ¬ job_succeeds guid files finish fs →
  let st := (run_entries init_job (csvEntries files)).1 in
  let result := upload_handler guid (Some (Opened files)) finish fs in
  match finish with
  | SinkError _ _ None =>
      data result.2 !! consolidatedFilename guid
      = data fs !! consolidatedFilename guid
  | _ =>
      ∃ lines, data result.2 !! consolidatedFilename guid = Some lines
               ∧ lines `prefix_of` Stringifier.output (csvStringifier st)
  end
  ∧ (∀ name, name ≠ consolidatedFilename guid →
       data result.2 !! name = data fs !! name)
  ∧ ((∃ err, result.1 = Status 500 err ∧ zip_exists result.2 = false)
     ∨ (result.1 = Crash ∧ zip_exists result.2 = zip_exists fs)).
Proof.
  intros Hne Hfailed st result. split_and!.
  - pose proof (upload_handler_lines guid files finish fs Hne) as Hlines.
    unfold consolidated_lines in Hlines. unfold result. rewrite Hlines.
    destruct finish as [|err listening [n|]]; simpl; [| |done].
    + by eexists.
    + eexists. split; [done|]. apply prefix_take.
  - intros name Hname. by apply upload_handler_others.
  - assert (result.1 = Crash ∧ zip_exists result.2 = zip_exists fs
            ∨ (∃ err, result.1 = Status 500 err ∧ zip_exists result.2 = false)
            ∨ job_succeeds guid files finish fs) as Hcases.
    { unfold job_succeeds. fold result. unfold result.
      rewrite upload_handler_entries by done. cbn zeta.
      handler_cases files finish; simpl; eauto 6. }
    destruct Hcases as [?|[?|?]]; [by right | by left | done].
Qed.

Lemma failed_job_leaves_consolidated_file_witness :
  consolidated_lines "g" [first_csv; second_csv]
    (SinkError "EIO" true (Some 3)) fresh_fs
  = Some [["A"; "B"; "C"]; ["A"; "B"; "C"]; ["1"; "2"; "3"]]
  ∧ (upload_handler "g" (Some (Opened [first_csv; second_csv]))
       (SinkError "EIO" true (Some 3)) fresh_fs).1 = Status 500 "EIO".
Proof.
  assert (csvEntries [first_csv; second_csv] ≠ []) as Hne
    by (vm_compute; discriminate).
  assert (¬ job_succeeds "g" [first_csv; second_csv]
            (SinkError "EIO" true (Some 3)) fresh_fs) as Hfailed.
  { intros (p & d & loc & Hjson). vm_compute in Hjson. discriminate. }
  destruct (failed_job_leaves_consolidated_file "g" [first_csv; second_csv]
              (SinkError "EIO" true (Some 3)) fresh_fs Hne Hfailed)
    as ((lines & Hlines & _) & _ & _).
  split; vm_compute; reflexivity.
Defined.

(** ** The header line *)

(** The lines of the file of a successful job in which some entry has a
    header: the column names, the column names again, then one line per
    projected row. *)
Lemma successful_job_lines guid files finish fs headers :
  job_succeeds guid files finish fs →
  first_headers (all_events (csvEntries files)) = Some headers →
  ∃ lines,
    consolidated_lines guid files finish fs
    = Some (output_columns headers :: output_columns headers :: lines)
    ∧ Forall2 (λ record fields,
                 Stringifier.line (output_columns headers) record = Some fields)
        (rows_out None (all_events (csvEntries files))) lines.
Proof.
  intros (Hne & Hend & Hok & ->)%job_succeeds_iff Hfirst.
  rewrite upload_handler_lines by done. simpl.
  revert Hok. rewrite run_entries_events.
  rewrite failure_None_processed by by apply failure_None_Forall.
  pose proof (events_output (all_events (csvEntries files))) as Hout.
  rewrite Hfirst in Hout. cbn zeta in Hout.
  destruct Hout as (Hout & _ & Hfail). intros Hok%Hfail.
  eexists. split; [by rewrite Hout|]. by apply rendered_castable_Forall2.
Qed.

(** C4 on the code: the job over the single entry [first_csv] succeeds, and
    its consolidated file starts with the canonical header twice, as the
    first and as the second record, before the only data row.  The sink is
    created with [header: true], so it puts out the column names ahead of the
    first record written, and the first record written is the header record
    of line 122. *)
Theorem header_line_written_twice :
  job_succeeds "g" [first_csv] Finish fresh_fs
  ∧ canonicalHeaders (run_entries init_job [first_csv]).1 = Some ["A"; "B"; "C"]
  ∧ consolidated_lines "g" [first_csv] Finish fresh_fs
    = Some [["A"; "B"; "C"]; ["A"; "B"; "C"]; ["1"; "2"; "3"]].
Proof.
  split_and!.
  - eexists _, _, _. vm_compute. reflexivity.
  - vm_compute. reflexivity.
  - vm_compute. reflexivity.
Qed.

(** ** Path resolution of the preview handler *)

Lemma segments_no_slash s : Forall (λ seg, no_slash seg = true) (Path.segments s).
Proof.
  induction s as [|c s IH]; simpl.
  - by repeat constructor.
  - destruct (Ascii.eqb c "/") eqn:Hc; [by constructor|].
    destruct (Path.segments s) as [|seg rest]; [by repeat constructor; simpl; rewrite Hc|].
    inversion IH as [|? ? Hseg Hrest]; subst.
    constructor; [|done]. simpl. by rewrite Hc, Hseg.
Qed.

Lemma segments_whole s : no_slash s = true → Path.segments s = [s].
Proof.
  induction s as [|c s IH]; simpl; [done|].
  intros [Hc Hs]%andb_true_iff.
  destruct (Ascii.eqb c "/"); [done|]. by rewrite IH.
Qed.

Lemma basename_no_slash p : no_slash (Path.basename p) = true.
Proof.
  unfold Path.basename.
  destruct (last _) as [b|] eqn:Hlast; simpl; [|done].
  apply last_Some_elem_of, list_elem_of_filter in Hlast as [_ Hin].
  pose proof (segments_no_slash p) as Hall.
  rewrite Forall_forall in Hall. by apply Hall.
Qed.

Lemma normalize_step_plain acc seg :
  plain seg → Path.normalize_step acc seg = acc ++ [seg].
Proof.
  intros (H1 & H2 & H3). unfold Path.normalize_step.
  by rewrite !decide_False.
Qed.

Lemma normalize_from_plain acc segs :
  Forall plain segs → foldl Path.normalize_step acc segs = acc ++ segs.
Proof.
  intros Hall. revert acc.
  induction Hall as [|seg segs Hseg Hall IH]; intros acc; simpl.
  - by rewrite app_nil_r.
  - rewrite normalize_step_plain by done. rewrite IH, <- app_assoc. done.
Qed.

Lemma plain_data : plain "data".
Proof. repeat split; discriminate. Qed.

Lemma join_data_dir cwd name :
  Forall plain cwd →
  Path.join (DATA_DIR cwd) name
  = foldl Path.normalize_step (cwd ++ ["data"]) (Path.segments name).
Proof.
  intros Hcwd. unfold Path.join, Path.normalize, DATA_DIR.
  rewrite foldl_app. f_equal.
  rewrite normalize_from_plain; [done|].
  apply Forall_app. split; [done|]. repeat constructor; apply plain_data.
Qed.

(** A file name whose last segment is an ordinary name resolves to that name
    directly under the data directory. *)
Lemma resolve_preview_plain cwd file :
  Forall plain cwd → plain (Path.basename file) →
  resolve_preview cwd file = cwd ++ ["data"; Path.basename file]
  ∧ Path.inside (DATA_DIR cwd) (resolve_preview cwd file).
Proof.
  intros Hcwd Hplain.
  assert (resolve_preview cwd file = cwd ++ ["data"; Path.basename file]) as Heq.
  { unfold resolve_preview. rewrite join_data_dir by done.
    rewrite segments_whole by apply basename_no_slash.
    simpl. rewrite normalize_step_plain by done. by rewrite <- app_assoc. }
  split; [done|].
  exists [Path.basename file]. split; [done|].
  rewrite Heq. unfold DATA_DIR. by rewrite <- app_assoc.
Qed.

(** A file name whose last segment is [..] resolves to the working directory,
    the parent of the data directory. *)
Lemma resolve_preview_dotdot cwd file :
  Forall plain cwd → Path.basename file = ".." →
  resolve_preview cwd file = cwd
  ∧ ¬ Path.inside (DATA_DIR cwd) (resolve_preview cwd file).
Proof.
  intros Hcwd Hbase.
  assert (resolve_preview cwd file = cwd) as Heq.
  { unfold resolve_preview. rewrite join_data_dir by done.
    rewrite Hbase. simpl. unfold Path.normalize_step. simpl.
    apply removelast_last. }
  split; [done|].
  rewrite Heq. intros (rest & _ & Hrest). unfold DATA_DIR in Hrest.
  apply (f_equal length) in Hrest. rewrite !length_app in Hrest. simpl in Hrest. lia.
Qed.

Lemma length_lt_num n q :
  Js.length_lt n (Js.Num q) = true ↔ (n < Z.to_nat (Qceiling q))%nat.
Proof.
  unfold Js.length_lt. rewrite negb_true_iff. split.
  - intros Hle.
    destruct (decide (n < Z.to_nat (Qceiling q))%nat) as [|Hge]; [done|].
    exfalso.
    assert (Qceiling q ≤ Z.of_nat n)%Z as Hceil by lia.
    assert (q <= inject_Z (Z.of_nat n))%Q as Hq.
    { eapply Qle_trans; [apply Qle_ceiling|]. by rewrite <- Zle_Qle. }
    apply Qle_bool_iff in Hq. congruence.
  - intros Hlt.
    destruct (Qle_bool q (inject_Z (Z.of_nat n))) eqn:Hle; [|done].
    apply Qle_bool_iff, Qceiling_resp_le in Hle.
    rewrite Qceiling_Z in Hle. lia.
Qed.

(** The loop of line 221 under a bound [k] on the length. *)
Lemma collect_bounded (lt : nat → bool) (k : nat) (out rows : list raw_row) :
  (∀ n, lt n = true ↔ (n < k)%nat) →
  foldl (λ out row, if lt (length out) then out ++ [row] else out) out rows
  = out ++ take (k - length out) rows.
Proof.
  intros Hlt. revert out.
  induction rows as [|row rows IH]; intros out; simpl.
  - by rewrite take_nil, app_nil_r.
  - rewrite IH. destruct (lt (length out)) eqn:Hout.
    + apply Hlt in Hout. rewrite length_app. simpl.
      replace (k - length out) with (S (k - (length out + 1))) by lia.
      simpl. by rewrite <- app_assoc.
    + assert (¬ (length out < k)%nat) as Hge
        by (intros Hl%Hlt; congruence).
      replace (k - length out) with 0 by lia. done.
Qed.

Lemma collect_unbounded (lt : nat → bool) (out rows : list raw_row) :
  (∀ n, lt n = true) →
  foldl (λ out row, if lt (length out) then out ++ [row] else out) out rows
  = out ++ rows.
Proof.
  intros Hlt. revert out.
  induction rows as [|row rows IH]; intros out; simpl.
  - by rewrite app_nil_r.
  - by rewrite Hlt, IH, <- app_assoc.
Qed.

(** What the preview handler reads out under each kind of limit: a finite
    limit keeps as many rows as the least whole number that is not below it,
    [NaN] and the negative infinity keep none, the positive infinity keeps
    all. *)
Lemma collect_preview_num q rows :
  collect_preview (Js.Num q) rows = take (Z.to_nat (Qceiling q)) rows.
Proof.
  unfold collect_preview.
  rewrite (collect_bounded (λ n, Js.length_lt n (Js.Num q))
             (Z.to_nat (Qceiling q)))
    by (intros n; apply length_lt_num).
  simpl. by rewrite Nat.sub_0_r.
Qed.

Lemma collect_preview_none limit rows :
  limit = Js.NaN ∨ limit = Js.NegInfinity → collect_preview limit rows = [].
Proof.
  intros Hlimit. unfold collect_preview.
  rewrite (collect_bounded (λ n, Js.length_lt n limit) 0).
  - done.
  - intros n. destruct Hlimit as [->| ->]; simpl; split; (done || lia).
Qed.

Lemma collect_preview_infinity rows :
  collect_preview Js.Infinity rows = rows.
Proof.
  unfold collect_preview.
  by rewrite (collect_unbounded (λ n, Js.length_lt n Js.Infinity)).
Qed.

(** The preview handler on a file name whose last segment is an ordinary
    name: it looks at that name under the data directory, answers 404 when
    nothing is there, and under a finite limit returns no more rows of a
    readable file than the least whole number that is not below the limit. *)
Lemma preview_handler_plain cwd disk file limit :
  Forall plain cwd → plain (Path.basename file) →
  Path.inside (DATA_DIR cwd) (resolve_preview cwd file)
  ∧ (disk (cwd ++ ["data"; Path.basename file]) = None →
     preview_handler cwd disk (Some file) limit
     = PreviewStatus 404 "file not found")
  ∧ (∀ rows q,
       preview_handler cwd disk (Some file) limit = PreviewJson rows →
       default (Js.Num 50) limit = Js.Num q →
       (length rows ≤ Z.to_nat (Qceiling q))%nat).
Proof.
  intros Hcwd Hplain.
  destruct (resolve_preview_plain cwd file Hcwd Hplain) as [Heq Hin].
  split_and!; [done | |].
  - intros Hnone. unfold preview_handler.
    destruct (Js.truthy file) eqn:Htruthy; simpl.
    + by rewrite Heq, Hnone.
    + exfalso. unfold Js.truthy in Htruthy.
      apply negb_false_iff, String.eqb_eq in Htruthy. subst file.
      destruct Hplain as [Hne _]. apply Hne. vm_compute. reflexivity.
  - intros rows q. unfold preview_handler.
    destruct (Js.truthy file); simpl; [|done].
    destruct (disk _) as [[|rows' [|err|err]]|]; try done.
    intros [= <-] ->. rewrite collect_preview_num, length_take. lia.
Qed.

(** C9 on the code: for the file name [..] (and for any name ending in
    [/..]) the resolved path is the working directory, the parent of the
    output directory and so not inside it; the path exists, so the handler
    does not answer not-found but opens a read stream on a directory, whose
    error has no listener. *)
Theorem preview_resolves_parent_directory :
  Path.basename ".." = ".."
  ∧ resolve_preview app_cwd ".." = ["srv"; "app"]
  ∧ resolve_preview app_cwd "consolidated-g.csv/.." = ["srv"; "app"]
  ∧ ¬ Path.inside (DATA_DIR app_cwd) (resolve_preview app_cwd "..")
  ∧ preview_handler app_cwd app_disk (Some "..") None = Unhandled "EISDIR"
  ∧ preview_handler app_cwd app_disk (Some "..") None
    ≠ PreviewStatus 404 "file not found".
Proof.
  assert (Forall plain app_cwd) as Hcwd.
  { repeat constructor; discriminate. }
  split_and!.
  - vm_compute. reflexivity.
  - vm_compute. reflexivity.
  - vm_compute. reflexivity.
  - by apply resolve_preview_dotdot.
  - vm_compute. reflexivity.
  - vm_compute. discriminate.
Qed.


(** ** Name filters *)

Lemma substring_all s : substring 0 (String.length s) s = s.
Proof. induction s as [|c s IH]; simpl; [done | by rewrite IH]. Qed.

Lemma append_cons c s1 s2 : String c s1 +:+ s2 = String c (s1 +:+ s2).
Proof. reflexivity. Qed.

Lemma append_empty s : "" +:+ s = s.
Proof. reflexivity. Qed.

Lemma substring_skip pre suf :
  substring (String.length pre) (String.length suf) (pre +:+ suf) = suf.
Proof.
  induction pre as [|c pre IH].
  - rewrite append_empty. apply substring_all.
  - rewrite append_cons. simpl. exact IH.
Qed.

Lemma length_append s1 s2 :
  String.length (s1 +:+ s2) = (String.length s1 + String.length s2)%nat.
Proof.
  induction s1 as [|c s1 IH]; [done|].
  rewrite append_cons. simpl. by rewrite IH.
Qed.

Lemma substring_split n s :
  (n ≤ String.length s)%nat →
  s = substring 0 n s +:+ substring n (String.length s - n) s.
Proof.
  revert s. induction n as [|n IH]; intros s Hn.
  - rewrite Nat.sub_0_r, substring_all. by destruct s.
  - destruct s as [|c s]; simpl in *; [lia|].
    rewrite append_cons. f_equal. apply IH. lia.
Qed.

(** [endsWith] holds exactly of the strings that are some prefix followed by
    the suffix. *)
Lemma endsWith_spec s suffix :
  Js.endsWith s suffix = true ↔ ∃ stem, s = stem +:+ suffix.
Proof.
  unfold Js.endsWith. rewrite andb_true_iff, Nat.leb_le, String.eqb_eq. split.
  - intros [Hle Hsub]. exists (substring 0 (String.length s - String.length suffix) s).
    pose proof (substring_split (String.length s - String.length suffix) s) as Hsplit.
    replace (String.length s - (String.length s - String.length suffix))
      with (String.length suffix) in Hsplit by lia.
    rewrite Hsub in Hsplit. apply Hsplit. lia.
  - intros [stem ->]. rewrite length_append. split; [lia|].
    replace (String.length stem + String.length suffix - String.length suffix)
      with (String.length stem) by lia.
    apply substring_skip.
Qed.

Lemma lower_ascii_idemp c : Js.lower_ascii (Js.lower_ascii c) = Js.lower_ascii c.
Proof.
  unfold Js.lower_ascii.
  destruct ((65 <=? nat_of_ascii c)%nat && (nat_of_ascii c <=? 90)%nat) eqn:Hup;
    [|by rewrite Hup].
  apply andb_true_iff in Hup as [H1%Nat.leb_le H2%Nat.leb_le].
  rewrite nat_ascii_embedding by lia.
  destruct (Nat.leb_spec (nat_of_ascii c + 32) 90) as [Hle|Hgt]; [lia|].
  by rewrite andb_false_r.
Qed.

Lemma toLowerCase_idemp s : Js.toLowerCase (Js.toLowerCase s) = Js.toLowerCase s.
Proof.
  induction s as [|c s IH]; simpl; [done|]. by rewrite lower_ascii_idemp, IH.
Qed.

Lemma toLowerCase_length s : String.length (Js.toLowerCase s) = String.length s.
Proof. induction s as [|c s IH]; simpl; [done | by rewrite IH]. Qed.

Lemma is_csv_entry_spec f :
  is_csv_entry f = true
  ↔ type f = File ∧ ∃ stem, Js.toLowerCase (path f) = stem +:+ ".csv".
Proof.
  unfold is_csv_entry. rewrite !andb_true_iff, bool_decide_eq_true, endsWith_spec.
  split; [tauto|]. intros [Htype [stem Hstem]]. split_and!; [|done|by exists stem].
  destruct (path f); [|done].
  simpl in Hstem. destruct stem; [done|]. by rewrite append_cons in Hstem.
Qed.

(** X1: the entries the job works on are the archive's regular files whose
    name, lowercased, ends in [.csv], each as often as the archive lists it
    and in archive order: an entry of that kind at the head of the archive is
    kept at the head, any other entry is left out, and the entries of an
    archive in two parts are those of the first part followed by those of
    the second.  Directories and other files are left out, and the guard on
    an empty name adds nothing. *)
Theorem csvEntries_spec (files : list zip_entry) :
  csvEntries [] = []
  ∧ (∀ f, type f = File →
          (∃ stem, Js.toLowerCase (path f) = stem +:+ ".csv") →
          csvEntries (f :: files) = f :: csvEntries files)
  ∧ (∀ f, ¬ (type f = File
             ∧ ∃ stem, Js.toLowerCase (path f) = stem +:+ ".csv") →
          csvEntries (f :: files) = csvEntries files)
  ∧ (∀ more, csvEntries (files ++ more) = csvEntries files ++ csvEntries more)
  ∧ csvEntries files `sublist_of` files
  ∧ (∀ f, f ∈ csvEntries files
          ↔ f ∈ files ∧ type f = File
            ∧ ∃ stem, Js.toLowerCase (path f) = stem +:+ ".csv").
Proof.
  assert (∀ l, csvEntries l = filter (λ f, is_csv_entry f = true) l) as Hfilter.
  { induction l as [|x l IH]; [done|]. unfold csvEntries in *. simpl.
    rewrite filter_cons. rewrite IH.
    destruct (is_csv_entry x); by case_decide. }
  split_and!.
  - done.
  - intros f Htype Hstem.
    assert (is_csv_entry f = true) as Hf by (by apply is_csv_entry_spec).
    unfold csvEntries. simpl. by rewrite Hf.
  - intros f Hf. rewrite <- is_csv_entry_spec in Hf.
    unfold csvEntries. simpl. by destruct (is_csv_entry f).
  - intros more. unfold csvEntries. apply List.filter_app.
  - rewrite Hfilter. apply sublist_filter.
  - intros f. rewrite Hfilter, list_elem_of_filter, is_csv_entry_spec. tauto.
Qed.

Lemma csvEntries_spec_witness :
  csvEntries (first_csv :: no_csv_archive ++ [first_csv; second_csv])
  = [first_csv; first_csv; second_csv].
Proof.
  destruct (csvEntries_spec (no_csv_archive ++ [first_csv; second_csv]))
    as (_ & Hkeep & _).
  destruct (csvEntries_spec no_csv_archive) as (_ & _ & _ & Happ & _).
  rewrite (Hkeep first_csv); [| done | by exists "export/first"].
  rewrite Happ. vm_compute. reflexivity.
Defined.

(** X2: the upload filter accepts exactly the names whose lowercase ends in
    [.zip] and rejects every other name with the error of line 40; the answer
    does not depend on the case of the name. *)
Theorem fileFilter_spec (originalname : string) :
  (fileFilter originalname = Accept
   ↔ ∃ stem, Js.toLowerCase originalname = stem +:+ ".zip")
  ∧ (fileFilter originalname ≠ Accept →
     fileFilter originalname = Reject "Only .zip files are allowed")
  ∧ fileFilter (Js.toLowerCase originalname) = fileFilter originalname
  ∧ ((String.length originalname < 4)%nat → fileFilter originalname ≠ Accept).
Proof.
  unfold fileFilter. split_and!.
  - rewrite <- endsWith_spec. by destruct (Js.endsWith _ _).
  - by destruct (Js.endsWith _ _).
  - by rewrite toLowerCase_idemp.
  - intros Hlen. unfold Js.endsWith. rewrite toLowerCase_length.
    change (String.length ".zip") with 4.
    destruct (Nat.leb_spec 4 (String.length originalname)); [lia | done].
Qed.

Lemma fileFilter_spec_witness :
  fileFilter "Export.ZIP" = Accept
  ∧ fileFilter "zip" = Reject "Only .zip files are allowed".
Proof.
  destruct (fileFilter_spec "zip") as (_ & Hrej & _ & Hshort).
  split; [vm_compute; reflexivity|].
  apply Hrej, Hshort. simpl. lia.
Defined.

(** ** Alias resolution *)

Lemma pick_blank row names : Forall (blank row) names → pick row names = "".
Proof.
  induction 1 as [|k names [Hk|Hk] Hall IH]; simpl; [done|..]; by rewrite Hk.
Qed.


Lemma pick_cons_value row k v names :
  row !! k = Some v → v ≠ "" → pick row (k :: names) = v.
Proof.
  intros Hk Hv. simpl. rewrite Hk. unfold Js.truthy.
  by destruct (String.eqb_spec v "").
Qed.

Lemma pick_empty_blank row names :
  pick row names = "" → Forall (blank row) names.
Proof.
  induction names as [|k names IH]; simpl; [done|].
  destruct (row !! k) as [v|] eqn:Hk.
  - unfold Js.truthy. destruct (String.eqb_spec v "") as [->|Hv]; simpl.
    + intros Hrest. constructor; [by right | by apply IH].
    + intros ->. done.
  - intros Hrest. constructor; [by left | by apply IH].
Qed.




Lemma pick_app row l1 l2 :
  pick row (l1 ++ l2)
  = if decide (pick row l1 = "") then pick row l2 else pick row l1.
Proof.
  induction l1 as [|k l1 IH]; [done|]. cbn [app pick].
  destruct (row !! k) as [v|]; [|exact IH].
  unfold Js.truthy. destruct (String.eqb_spec v "") as [->|Hv]; simpl; [exact IH|].
  by rewrite decide_False.
Qed.

(** X4: a name listed a second time in an alias list never changes the
    result; so the fifth alias of the receiver type, which repeats the first,
    is without effect. *)
Theorem repeated_alias_without_effect (row : raw_row) :
  (∀ names k, k ∈ names → pick row (names ++ [k]) = pick row names)
  ∧ receiverTypeVal row
    = pick row ["Receiver type"; "Receiver Type"; "receiver type"; "receiver_type"].
Proof.
  assert (∀ names k, k ∈ names → pick row (names ++ [k]) = pick row names) as Hdup.
  { intros names k Hin. rewrite pick_app. case_decide as Hblank; [|done].
    rewrite Hblank.
    apply pick_empty_blank in Hblank.
    rewrite Forall_forall in Hblank. apply pick_blank.
    constructor; [by apply Hblank | constructor]. }
  split; [exact Hdup|].
  apply (Hdup ["Receiver type"; "Receiver Type"; "receiver type"; "receiver_type"]).
  rewrite !elem_of_cons. tauto.
Qed.

Lemma repeated_alias_without_effect_witness :
  pick alias_row ["A"; "receiver_type"; "A"] = pick alias_row ["A"; "receiver_type"].
Proof.
  destruct (repeated_alias_without_effect alias_row) as [Hdup _].
  apply (Hdup ["A"; "receiver_type"] "A").
  rewrite !elem_of_cons. tauto.
Defined.

(** ** What the distinct-value sets hold *)

Lemma on_data_distinct st canonical row :
  reachable st → canonicalHeaders st = Some canonical →
  distinct (on_data row st) = collect_uniform row (distinct st).
Proof.
  intros Hst Hc.
  destruct (reachable_canonical _ _ Hst Hc) as [headers ->].
  unfold on_data. rewrite Hc. simpl. unfold collect, collect_uniform.
  f_equal. unfold currentStationVal, currentStation_uniform, Js.string_at.
  by rewrite project_get_absent by apply current_station_not_kept.
Qed.

Lemma events_distinct st evs :
  reachable st →
  distinct (foldl on_event st evs)
  = foldl (λ d row, collect_uniform row d) (distinct st)
      (handled_rows (header_known st) evs).
Proof.
  revert st. induction evs as [|[headers|row] evs IH]; intros st Hst; [done|..].
  - cbn [foldl on_event handled_rows].
    rewrite IH by (by apply (reachable_event st (Headers headers))).
    unfold on_headers, header_known.
    by destruct (canonicalHeaders st) eqn:Hc; simpl; rewrite ?Hc.
  - cbn [foldl on_event handled_rows].
    rewrite IH by (by apply (reachable_event st (Data row))).
    unfold header_known.
    destruct (canonicalHeaders st) as [c|] eqn:Hc.
    + rewrite (on_data_distinct st c row Hst Hc).
      unfold on_data. rewrite Hc. done.
    + unfold on_data. rewrite Hc. by rewrite Hc.
Qed.

(** Case analysis on a membership [H : (f, val) ∈ resolvers]. *)
Ltac each_resolver H :=
  unfold resolvers in H; rewrite !elem_of_cons, elem_of_nil in H;
  destruct H as [[= -> ->]|[[= -> ->]|[[= -> ->]|[[= -> ->]|[]]]]].

Lemma collect_uniform_elem f val row d x :
  (f, val) ∈ resolvers →
  x ∈ f (collect_uniform row d) ↔ x ∈ f d ∨ (x = val row ∧ val row ≠ "").
Proof. intros Hr. each_resolver Hr; simpl; apply add_if_elem. Qed.

Lemma collect_rows_elem f val rows d x :
  (f, val) ∈ resolvers →
  x ∈ f (foldl (λ d row, collect_uniform row d) d rows)
  ↔ x ∈ f d ∨ (x ≠ "" ∧ ∃ row, row ∈ rows ∧ val row = x).
Proof.
  intros Hr. revert d. induction rows as [|row rows IH]; intros d; simpl.
  - split; [by left|]. intros [?|(_ & row & Hin & _)]; [done|].
    by apply elem_of_nil in Hin.
  - rewrite IH, (collect_uniform_elem f val row d x Hr). split.
    + intros [[?|[-> Hne]]|(Hne & r & Hin & Hval)].
      * by left.
      * right. split; [done|]. exists row. split; [apply elem_of_cons; by left | done].
      * right. split; [done|]. exists r. split; [apply elem_of_cons; by right | done].
    + intros [?|(Hne & r & Hin & Hval)]; [by left; left|].
      apply elem_of_cons in Hin as [->|Hin].
      * left. right. by subst x.
      * right. split; [done|]. by exists r.
Qed.

(** X5: after a job, each distinct-value set holds exactly the non-empty
    values its field takes on the raw rows the job worked on (those that
    follow the first header event, in the entries up to a failure), and
    nothing else. *)
Theorem distinct_sets_content
    (entries : list zip_entry) (f : distinct_sets → Js.sset)
    (val : raw_row → string) (x : string) :
  (f, val) ∈ resolvers →
  x ∈ f (distinct (run_entries init_job entries).1)
  ↔ x ≠ "" ∧ ∃ row, row ∈ handled_rows false (all_events (processed entries))
                    ∧ val row = x.
Proof.
  intros Hr. rewrite run_entries_processed. simpl.
  rewrite parse_entries_events, events_distinct by apply reachable_init.
  rewrite (collect_rows_elem f val _ _ x Hr).
  split; [|by right]. intros [Hin|?]; [|done]. revert Hin.
  each_resolver Hr; simpl; by intros ?%elem_of_nil.
Qed.

Lemma distinct_sets_content_witness :
  "Received" ∈ receiveStatus (distinct (run_entries init_job [blank_status_csv]).1).
Proof.
  assert ((receiveStatus, receiveStatusVal) ∈ resolvers) as Hr.
  { unfold resolvers. rewrite !elem_of_cons. tauto. }
  apply (distinct_sets_content [blank_status_csv] receiveStatus receiveStatusVal
           "Received" Hr).
  split; [discriminate|].
  exists {[ "A" := "2"; "Receive Status" := "Received" ]}.
  split; [|vm_compute; reflexivity].
  simpl. rewrite !elem_of_cons. tauto.
Defined.

Lemma add_NoDup x (s : Js.sset) : NoDup s → NoDup (Js.add x s).
Proof.
  intros Hs. unfold Js.add. case_decide as Hin; [done|].
  apply NoDup_app. split_and!; [done | | apply NoDup_singleton].
  intros y Hy ->%list_elem_of_singleton. done.
Qed.

Lemma add_if_NoDup v (s : Js.sset) : NoDup s → NoDup (add_if v s).
Proof. intros Hs. unfold add_if. destruct (Js.truthy v); [by apply add_NoDup | done]. Qed.

Lemma reachable_NoDup st f : reachable st → f ∈ fields → NoDup (f (distinct st)).
Proof.
  intros Hst Hf. induction Hst as [|st ev Hst IH].
  - each_field Hf; apply NoDup_nil_2.
  - destruct ev as [headers|row]; simpl.
    + unfold on_headers. by destruct (canonicalHeaders st).
    + unfold on_data. destruct (canonicalHeaders st); [|done].
      simpl. each_field Hf; simpl in *; by apply add_if_NoDup.
Qed.

Lemma add_if_prefix v (s : Js.sset) : s `prefix_of` add_if v s.
Proof.
  unfold add_if, Js.add. destruct (Js.truthy v); [|by exists []; rewrite app_nil_r].
  case_decide; [by exists []; rewrite app_nil_r | by exists [v]].
Qed.

Lemma filter_nonempty_id (s : Js.sset) : "" ∉ s → filter (λ x, x ≠ "") s = s.
Proof.
  induction s as [|x s IH]; [done|].
  intros [Hx Hs]%not_elem_of_cons. rewrite filter_cons.
  rewrite decide_True by done. by rewrite IH.
Qed.

(** X6: in every job state each distinct-value set is free of repetitions and
    kept in the order its values were first seen; the array returned for it is
    its first 1000 values in that order, without repetition, and the whole
    set when it has at most 1000 values. *)
Theorem distinct_payload_prefix (st : job) (f : distinct_sets → Js.sset) :
  reachable st → f ∈ fields →
  NoDup (f (distinct st))
  ∧ f (distinct_payload (distinct st)) = take 1000 (f (distinct st))
  ∧ NoDup (f (distinct_payload (distinct st)))
  ∧ ((length (f (distinct st)) ≤ 1000)%nat →
     f (distinct_payload (distinct st)) = f (distinct st))
  ∧ (∀ row, f (distinct st) `prefix_of` f (distinct (on_data row st))).
Proof.
  intros Hst Hf.
  pose proof (reachable_NoDup st f Hst Hf) as Hnd.
  pose proof (reachable_no_empty st f Hst Hf) as Hne.
  assert (f (distinct_payload (distinct st)) = take 1000 (f (distinct st))) as Heq.
  { each_field Hf; simpl in *; unfold toArrayLimit; by rewrite filter_nonempty_id. }
  split_and!.
  - done.
  - done.
  - rewrite Heq. eapply sublist_NoDup; [exact Hnd | apply sublist_take].
  - intros Hlen. rewrite Heq. by apply take_ge.
  - intros row. unfold on_data. destruct (canonicalHeaders st); [|done].
    simpl. each_field Hf; simpl; apply add_if_prefix.
Qed.

Lemma distinct_payload_prefix_witness :
  receiveStatus
    (distinct_payload (distinct (parse_entry init_job blank_status_csv)))
  = ["Received"].
Proof.
  assert (reachable (parse_entry init_job blank_status_csv)) as Hst
    by apply reachable_parse_entry, reachable_init.
  assert (receiveStatus ∈ fields) as Hf.
  { unfold fields. rewrite !elem_of_cons. tauto. }
  destruct (distinct_payload_prefix (parse_entry init_job blank_status_csv)
              receiveStatus Hst Hf) as (_ & _ & _ & Hall & _).
  rewrite Hall; [vm_compute; reflexivity|].
  vm_compute. lia.
Defined.

(** ** The header across entries *)

Lemma events_no_headers st evs :
  canonicalHeaders st = None → first_headers evs = None →
  foldl on_event st evs = st.
Proof.
  intros Hc. induction evs as [|[headers|row] evs IH]; simpl; [done..|].
  intros Hnone. unfold on_data at 1. rewrite Hc. by apply IH.
Qed.

Lemma run_entries_skip_blank blank_entries entries :
  Forall (λ e, first_headers (events e) = None ∧ ending e = End) blank_entries →
  run_entries init_job (blank_entries ++ entries) = run_entries init_job entries.
Proof.
  intros Hblank. induction Hblank as [|e l [Hnone Hend] Hl IH]; [done|].
  simpl. rewrite Hend. unfold parse_entry.
  rewrite events_no_headers by done. exact IH.
Qed.

(** X7: the canonical header of a job comes from the first header event of
    the whole job, whichever entry emits it: entries without a header line
    (empty files) ahead of it are passed over, their stray rows dropped, and a
    job with no header event at all keeps no canonical header. *)
Theorem canonical_header_first_event (entries : list zip_entry) :
  canonicalHeaders (run_entries init_job entries).1
  = keep_headers <$> first_headers (all_events (processed entries))
  ∧ (∀ (blank_entries : list zip_entry),
       Forall (λ e, first_headers (events e) = None ∧ ending e = End)
         blank_entries →
       run_entries init_job (blank_entries ++ entries)
       = run_entries init_job entries).
Proof.
  split.
  - rewrite run_entries_processed. simpl.
    rewrite parse_entries_events. by apply events_first_headers.
  - intros blank_entries. apply run_entries_skip_blank.
Qed.

Lemma canonical_header_first_event_witness :
  canonicalHeaders (run_entries init_job [empty_csv; first_csv]).1
  = Some ["A"; "B"; "C"].
Proof.
  destruct (canonical_header_first_event [first_csv]) as [_ Hskip].
  assert (Forall (λ e, first_headers (events e) = None ∧ ending e = End)
            [empty_csv]) as Hblank by (repeat constructor).
  change [empty_csv; first_csv] with ([empty_csv] ++ [first_csv]).
  rewrite (Hskip [empty_csv] Hblank). vm_compute. reflexivity.
Defined.

(** X8: an archive whose CSV entries all end cleanly without a header event
    (only empty files) is a successful job: the answer carries an empty
    preview and four empty arrays, and an empty consolidated file is left at
    the path the answer names. *)
Theorem job_without_header
    (guid : string) (files : list zip_entry) (fs : filesystem) :
  csvEntries files ≠ [] →
  Forall (λ e, first_headers (events e) = None ∧ ending e = End)
    (csvEntries files) →
  (upload_handler guid (Some (Opened files)) Finish fs).1
  = Json [] {| currentStation := []; receiverType := [];
               journeyType := []; receiveStatus := [] |}
      ("/data/" +:+ consolidatedFilename guid)
  ∧ consolidated_lines guid files Finish fs = Some [].
Proof.
  intros Hne Hblank.
  assert (run_entries init_job (csvEntries files) = (init_job, None)) as Hrun.
  { rewrite <- (app_nil_r (csvEntries files)).
    by rewrite run_entries_skip_blank. }
  assert (failure (csvEntries files) = None) as Hfail.
  { rewrite run_entries_processed in Hrun. by injection Hrun. }
  unfold consolidated_lines.
  rewrite upload_handler_entries by done. cbn zeta.
  rewrite Hrun, Hfail. simpl. split; [done|]. by rewrite lookup_insert_eq.
Qed.

Lemma job_without_header_witness :
  upload_handler "g" (Some (Opened [empty_csv; empty_csv])) Finish fresh_fs
  = (Json [] {| currentStation := []; receiverType := [];
                journeyType := []; receiveStatus := [] |}
       "/data/consolidated-g.csv",
     {| zip_exists := false; data := {[ "consolidated-g.csv" := [] ]} |}).
Proof.
  assert (csvEntries [empty_csv; empty_csv] ≠ []) as Hne
    by (vm_compute; discriminate).
  assert (Forall (λ e, first_headers (events e) = None ∧ ending e = End)
            (csvEntries [empty_csv; empty_csv])) as Hblank
    by (repeat constructor).
  destruct (job_without_header "g" [empty_csv; empty_csv] fresh_fs Hne Hblank)
    as [Hresp _].
  destruct (upload_handler "g" (Some (Opened [empty_csv; empty_csv])) Finish
              fresh_fs) as [resp fs'] eqn:Hup.
  simpl in Hresp. subst resp. f_equal.
  vm_compute in Hup. injection Hup as <-. vm_compute. reflexivity.
Defined.

(** ** Outcomes of an upload *)

Ltac outcome :=
  repeat first
    [ done
    | progress simplify_eq
    | match goal with
      | |- _ ↔ _ => split
      | |- _ → _ => intros ?
      | |- ¬ _ => intros ?
      | H : _ ∧ _ |- _ => destruct H
      | H : _ ∨ _ |- _ => destruct H
      | H : ∃ _, _ |- _ => destruct H
      | H : is_Some None |- _ => by destruct H
      | H : ¬ _ |- _ => by (exfalso; apply H; eauto 8)
      | |- _ ∧ _ => split
      end
    | by eauto 8 ].

(** X9: the outcomes of an upload whose archive opens.  The answer is the
    JSON result exactly when there is a CSV entry, every stream ends with
    ['end'], the sink fails on no record and the write stream finishes.  It
    is status 400 exactly when there is no CSV entry.  There is no answer at
    all exactly when, with a CSV entry, an ['error'] event finds no listener:
    the sink cannot cast a value, the loop stops at an entry whose own stream
    fails, or the write stream fails before line 177.  Otherwise the answer
    is status 500, with the error the parser rejected with or, when the loop
    got through, the error of the write stream.  A successful answer names
    the file that the job has left in the output directory. *)
Theorem upload_outcomes
    (guid : string) (files : list zip_entry) (finish : sink_end)
    (fs : filesystem) :
  (job_succeeds guid files finish fs
   ↔ csvEntries files ≠ []
     ∧ Forall (λ e, ending e = End) (csvEntries files)
     ∧ Stringifier.failed
         (csvStringifier (run_entries init_job (csvEntries files)).1) = None
     ∧ finish = Finish)
  ∧ ((upload_handler guid (Some (Opened files)) finish fs).1
     = Status 400 "No CSV files found inside the zip"
     ↔ csvEntries files = [])
  ∧ ((upload_handler guid (Some (Opened files)) finish fs).1 = Crash
     ↔ csvEntries files ≠ [] ∧ crashes files finish)
  ∧ (∀ err, (upload_handler guid (Some (Opened files)) finish fs).1
            = Status 500 err
            ↔ csvEntries files ≠ [] ∧ ¬ crashes files finish
              ∧ (failure (csvEntries files) = Some (Rejected err)
                 ∨ (failure (csvEntries files) = None
                    ∧ ∃ written, finish = SinkError err true written)))
  ∧ (∀ p d loc, (upload_handler guid (Some (Opened files)) finish fs).1
                = Json p d loc →
       loc = "/data/" +:+ consolidatedFilename guid
       ∧ is_Some (consolidated_lines guid files finish fs)).
Proof.
  split; [apply job_succeeds_iff|].
  destruct (decide (csvEntries files = [])) as [Hnil|Hne].
  { assert ((upload_handler guid (Some (Opened files)) finish fs).1
            = Status 400 "No CSV files found inside the zip") as Hresp
      by (unfold upload_handler; by rewrite Hnil).
    rewrite Hresp. split_and!.
    - done.
    - split; [done | by intros [? _]].
    - intros err. split; [done | by intros [? _]].
    - done. }
  rewrite (upload_handler_lines guid files finish fs Hne).
  rewrite upload_handler_entries by done. unfold crashes. cbn zeta.
  handler_cases files finish; simpl; split_and!; try (intros err);
    try (intros p d loc); outcome.
Qed.

Lemma upload_outcomes_witness :
  job_succeeds "g" [first_csv; second_csv] Finish fresh_fs
  ∧ (upload_handler "g" (Some (Opened [first_csv; second_csv]))
       (SinkError "ENOSPC" true (Some 1)) fresh_fs).1 = Status 500 "ENOSPC"
  ∧ (upload_handler "g" (Some (Opened [first_csv; second_csv]))
       (SinkError "EACCES" false None) fresh_fs).1 = Crash.
Proof.
  assert (csvEntries [first_csv; second_csv] ≠ []) as Hne
    by (vm_compute; discriminate).
  assert (Forall (λ e, ending e = End) (csvEntries [first_csv; second_csv]))
    as Hend by (repeat constructor).
  split_and!.
  - destruct (upload_outcomes "g" [first_csv; second_csv] Finish fresh_fs)
      as (Hok & _).
    apply Hok. split_and!; [done | done | vm_compute; reflexivity | done].
  - destruct (upload_outcomes "g" [first_csv; second_csv]
                (SinkError "ENOSPC" true (Some 1)) fresh_fs) as (_ & _ & _ & Herr & _).
    apply Herr. split_and!; [done | |].
    + intros [[? Hsome]|[[? Hun]|(? & ? & Hsink)]];
        [vm_compute in Hsome | vm_compute in Hun |]; discriminate.
    + right. split; [vm_compute; reflexivity | by exists (Some 1%nat)].
  - destruct (upload_outcomes "g" [first_csv; second_csv]
                (SinkError "EACCES" false None) fresh_fs) as (_ & _ & Hcrash & _).
    apply Hcrash. split; [done|]. right. right. by exists "EACCES", None.
Defined.

(** X10: what an upload leaves behind.  Every request that is answered and
    carries a file leaves no uploaded zip; when the process ends without an
    answer the zip stays where it was.  Whatever the outcome, no file of the
    output directory other than the one at the request's own consolidated
    path is changed.  An archive that cannot be opened is answered with
    status 500, and a request without a file with status 400 and no change
    at all. *)
Theorem upload_cleanup
    (guid : string) (opened : open_result) (finish : sink_end)
    (fs : filesystem) :
  ((upload_handler guid (Some opened) finish fs).1 ≠ Crash →
   zip_exists (upload_handler guid (Some opened) finish fs).2 = false)
  ∧ ((upload_handler guid (Some opened) finish fs).1 = Crash →
     zip_exists (upload_handler guid (Some opened) finish fs).2
     = zip_exists fs)
  ∧ (∀ name, name ≠ consolidatedFilename guid →
       data (upload_handler guid (Some opened) finish fs).2 !! name
       = data fs !! name)
  ∧ (∀ err, opened = OpenFailed err →
       upload_handler guid (Some opened) finish fs
       = (Status 500 err, unlink_zip fs))
  ∧ upload_handler guid None finish fs = (Status 400 "No file uploaded", fs).
Proof.
  split_and!; [| | |by intros err -> | done].
  - destruct opened as [err|files]; [done|].
    destruct (decide (csvEntries files = [])) as [Hnil|Hne].
    + unfold upload_handler. by rewrite Hnil.
    + rewrite upload_handler_entries by done. cbn zeta.
      handler_cases files finish; done.
  - destruct opened as [err|files]; [done|].
    destruct (decide (csvEntries files = [])) as [Hnil|Hne].
    + unfold upload_handler. by rewrite Hnil.
    + rewrite upload_handler_entries by done. cbn zeta.
      handler_cases files finish; done.
  - intros name Hname. destruct opened as [err|files]; [done|].
    by apply upload_handler_others.
Qed.

Lemma upload_cleanup_witness :
  data (upload_handler "g" (Some (Opened [first_csv])) Finish
          {| zip_exists := true;
             data := {[ "consolidated-old.csv" := [["A"]; ["1"]] ]} |}).2
    !! "consolidated-old.csv"
  = Some [["A"]; ["1"]]
  ∧ zip_exists
      (upload_handler "g" (Some (Opened [prototype_csv])) Finish fresh_fs).2
    = true.
Proof.
  split.
  - destruct (upload_cleanup "g" (Opened [first_csv]) Finish
                {| zip_exists := true;
                   data := {[ "consolidated-old.csv" := [["A"]; ["1"]] ]} |})
      as (_ & _ & Hother & _).
    rewrite (Hother "consolidated-old.csv") by (vm_compute; discriminate).
    vm_compute. reflexivity.
  - destruct (upload_cleanup "g" (Opened [prototype_csv]) Finish fresh_fs)
      as (_ & Hcrash & _).
    rewrite Hcrash; [done|]. vm_compute. reflexivity.
Defined.

(** ** Columns of the rows a job keeps *)

Lemma reachable_preview_rows st :
  reachable st →
  match canonicalHeaders st with
  | None => preview st = []
  | Some canonical => ∀ r, r ∈ preview st → ∃ row, r = project canonical row
  end.
Proof.
  induction 1 as [|st ev Hst IH]; [done|].
  destruct ev as [headers|row]; simpl.
  - unfold on_headers. destruct (canonicalHeaders st) eqn:Hc; simpl.
    + by rewrite Hc.
    + rewrite IH. by intros r ?%elem_of_nil.
  - unfold on_data. destruct (canonicalHeaders st) as [c|] eqn:Hc; simpl.
    + intros r. unfold push_preview.
      destruct (length (preview st) <? PREVIEW_LIMIT)%nat; [|by apply IH].
      intros [Hr| ->%list_elem_of_singleton]%elem_of_app; [by apply IH | by exists row].
    + by rewrite Hc.
Qed.

Lemma keep_headers_not_dropped headers h :
  h ∈ keep_headers headers → h ∉ DROP_HEADERS.
Proof. unfold keep_headers. rewrite list_elem_of_filter. tauto. Qed.

(** X11: in every job state the preview is empty until the canonical header
    is known, and from then on the keys of each preview row are the canonical
    header's names other than [__proto__], a name under which the assignment
    of line 134 makes no property; no canonical name and no key of a preview
    row is a dropped column. *)
Theorem preview_rows_schema (st : job) :
  reachable st →
  (canonicalHeaders st = None → preview st = [])
  ∧ (∀ canonical, canonicalHeaders st = Some canonical →
       (∀ h, h ∈ canonical → h ∉ DROP_HEADERS)
       ∧ (∀ r, r ∈ preview st →
            (∀ k, k ∈ Js.keys r ↔ k ∈ canonical ∧ k ≠ "__proto__")
            ∧ (∀ k, k ∈ DROP_HEADERS → Js.get k r = None))).
Proof.
  intros Hst. pose proof (reachable_preview_rows st Hst) as Hrows. split.
  - intros Hc. by rewrite Hc in Hrows.
  - intros canonical Hc. rewrite Hc in Hrows.
    destruct (reachable_canonical _ _ Hst Hc) as [headers ->].
    split; [intros h; apply keep_headers_not_dropped|].
    intros r Hr. destruct (Hrows r Hr) as [row ->]. split.
    + intros k. apply project_keys_elem.
    + intros k Hk. apply project_get_absent.
      intros Hin. exact (keep_headers_not_dropped _ _ Hin Hk).
Qed.

Lemma preview_rows_schema_witness :
  Forall (λ r, Js.get "Status" r = None)
    (preview (parse_entry init_job first_csv)).
Proof.
  assert (reachable (parse_entry init_job first_csv)) as Hst
    by apply reachable_parse_entry, reachable_init.
  assert (canonicalHeaders (parse_entry init_job first_csv)
          = Some ["A"; "B"; "C"]) as Hc by (vm_compute; reflexivity).
  assert ("Status" ∈ DROP_HEADERS) as Hdrop
    by (apply (bool_decide_unpack _); vm_compute; exact I).
  destruct (preview_rows_schema (parse_entry init_job first_csv) Hst)
    as [_ Hschema].
  destruct (Hschema ["A"; "B"; "C"] Hc) as [_ Hrows].
  apply Forall_forall. intros r Hr.
  destruct (Hrows r Hr) as [_ Hnone]. apply Hnone. exact Hdrop.
Defined.

Lemma dropped_name k : bool_decide (k ∈ DROP_HEADERS) = true → k ∈ DROP_HEADERS.
Proof. by intros ?%bool_decide_eq_true. Qed.

(** X12: the journey type and the receive status are read from the raw row:
    a row with a non-empty value under [Journey Type] (or [Receive Status])
    has that value in the field's set after the data event, although the
    column is in the drop-set and so is missing from the row written to the
    output and the preview. *)
Theorem dropped_columns_still_collected
    (st : job) (canonical : list string) (row : raw_row) (v : string) :
  reachable st → canonicalHeaders st = Some canonical → v ≠ "" →
  (row !! "Journey Type" = Some v →
   v ∈ journeyType (distinct (on_data row st))
   ∧ Js.get "Journey Type" (project canonical row) = None)
  ∧ (row !! "Receive Status" = Some v →
     v ∈ receiveStatus (distinct (on_data row st))
     ∧ Js.get "Receive Status" (project canonical row) = None).
Proof.
  intros Hst Hc Hv.
  rewrite (on_data_distinct st canonical row Hst Hc).
  destruct (reachable_canonical _ _ Hst Hc) as [headers ->].
  assert (∀ k, bool_decide (k ∈ DROP_HEADERS) = true →
               Js.get k (project (keep_headers headers) row) = None) as Hdrop.
  { intros k Hk%dropped_name. apply project_get_absent.
    intros Hin. exact (keep_headers_not_dropped _ _ Hin Hk). }
  split; intros Hrow; split.
  - simpl. apply add_if_elem. right. unfold journeyTypeVal.
    by rewrite (pick_cons_value row "Journey Type" v _ Hrow Hv).
  - apply Hdrop. vm_compute. reflexivity.
  - simpl. apply add_if_elem. right. unfold receiveStatusVal.
    by rewrite (pick_cons_value row "Receive Status" v _ Hrow Hv).
  - apply Hdrop. vm_compute. reflexivity.
Qed.

Lemma dropped_columns_still_collected_witness :
  "Forward"
  ∈ journeyType (distinct (on_data journey_row (parse_entry init_job first_csv)))
  ∧ Js.get "Journey Type" (project ["A"; "B"; "C"] journey_row) = None.
Proof.
  assert (reachable (parse_entry init_job first_csv)) as Hst
    by apply reachable_parse_entry, reachable_init.
  assert ("Forward" ≠ "") as Hv by discriminate.
  destruct (dropped_columns_still_collected (parse_entry init_job first_csv)
              ["A"; "B"; "C"] journey_row "Forward" Hst eq_refl Hv)
    as [Hjourney _].
  apply Hjourney. vm_compute. reflexivity.
Defined.

(** X13: [wroteHeader] is set exactly when the canonical header is, and the
    output sink has been handed a record exactly then: nothing is written
    before the first header event, and the first record written is the header
    record. *)
Theorem wroteHeader_invariant (st : job) :
  reachable st →
  (wroteHeader st = true ↔ is_Some (canonicalHeaders st))
  ∧ (Stringifier.records (csvStringifier st) ≠ 0 ↔ is_Some (canonicalHeaders st))
  ∧ (canonicalHeaders st = None →
     csvStringifier st = Stringifier.stringify true)
  ∧ (∀ headers, canonicalHeaders st = None →
       csvStringifier (on_event st (Headers headers))
       = Stringifier.write (header_record (keep_headers headers))
           (Stringifier.stringify true)).
Proof.
  intros Hst.
  assert ((wroteHeader st = true ↔ is_Some (canonicalHeaders st))
          ∧ (Stringifier.records (csvStringifier st) ≠ 0
             ↔ is_Some (canonicalHeaders st))
          ∧ (canonicalHeaders st = None →
             csvStringifier st = Stringifier.stringify true)) as Hinv.
  { induction Hst as [|st ev Hst (IH1 & IH2 & IH3)].
    - simpl. split_and!; [| |done]; (split; [done | by intros [? ?]]).
    - destruct ev as [headers|row]; simpl.
      + unfold on_headers. destruct (canonicalHeaders st) eqn:Hc; simpl.
        * rewrite ?Hc. done.
        * rewrite IH3 by done. rewrite write_header_record. simpl.
          split_and!; [by split | by split | done].
      + unfold on_data. destruct (canonicalHeaders st) eqn:Hc; simpl.
        * rewrite ?Hc. split_and!; [done | | done].
          split; [done|]. intros _. by apply write_records, IH2.
        * rewrite ?Hc. done. }
  destruct Hinv as (H1 & H2 & H3). split_and!; [done..|].
  intros headers Hc. simpl. unfold on_headers. rewrite Hc. simpl.
  by rewrite H3.
Qed.

Lemma wroteHeader_invariant_witness :
  wroteHeader (parse_entry init_job first_csv) = true
  ∧ wroteHeader (parse_entry init_job empty_csv) = false.
Proof.
  assert (reachable (parse_entry init_job first_csv)) as Hst
    by apply reachable_parse_entry, reachable_init.
  destruct (wroteHeader_invariant (parse_entry init_job first_csv) Hst)
    as (Hw & _).
  split; [|vm_compute; reflexivity].
  apply Hw. vm_compute. eexists. reflexivity.
Defined.

(** ** The preview handler *)

Lemma basename_whole name :
  no_slash name = true → Path.basename name = name.
Proof.
  intros Hname. unfold Path.basename. rewrite segments_whole by done.
  rewrite filter_cons. case_decide as Hne; [done|].
  rewrite filter_nil. simpl. destruct (decide (name = "")); [done|]. done.
Qed.

(** X14: what the preview handler returns for a readable file under each
    limit [Number] can make of the query parameter.  Under a finite limit it
    returns the first rows of the file in file order, as many as the least
    whole number that is not below the limit (so [limit] rows for a whole
    number, two rows for 1.5, none for zero or a negative number), and all
    rows when the file has fewer; the first 50 when no limit is given; none
    when the parameter is no number at all ([NaN]); all of them under
    [Infinity].  A request without a file name is answered with status 400
    whatever the disk holds. *)
Theorem preview_first_rows
    (cwd : list string) (disk : list string → option node)
    (file : string) (limit : option Js.number) (rows : list raw_row) :
  Forall plain cwd → plain (Path.basename file) →
  disk (cwd ++ ["data"; Path.basename file]) = Some (CsvFile rows End) →
  (∀ q, default (Js.Num 50) limit = Js.Num q →
     preview_handler cwd disk (Some file) limit
     = PreviewJson (take (Z.to_nat (Qceiling q)) rows))
  ∧ (∀ n : Z, limit = Some (Js.Num (inject_Z n)) →
       preview_handler cwd disk (Some file) limit
       = PreviewJson (take (Z.to_nat n) rows))
  ∧ (limit = None →
     preview_handler cwd disk (Some file) limit = PreviewJson (take 50 rows))
  ∧ (limit = Some Js.NaN ∨ limit = Some Js.NegInfinity →
     preview_handler cwd disk (Some file) limit = PreviewJson [])
  ∧ (limit = Some Js.Infinity →
     preview_handler cwd disk (Some file) limit = PreviewJson rows)
  ∧ preview_handler cwd disk None limit
    = PreviewStatus 400 "file query param required"
  ∧ preview_handler cwd disk (Some "") limit
    = PreviewStatus 400 "file query param required".
Proof.
  intros Hcwd Hplain Hdisk.
  assert (preview_handler cwd disk (Some file) limit
          = PreviewJson (collect_preview (default (Js.Num 50) limit) rows))
    as Heq.
  { destruct (resolve_preview_plain cwd file Hcwd Hplain) as [Hres _].
    unfold preview_handler.
    destruct (Js.truthy file) eqn:Htruthy; simpl.
    - by rewrite Hres, Hdisk.
    - exfalso. unfold Js.truthy in Htruthy.
      apply negb_false_iff, String.eqb_eq in Htruthy. subst file.
      destruct Hplain as [Hne _]. apply Hne. vm_compute. reflexivity. }
  rewrite Heq. split_and!; [| | | | | done | done].
  - intros q ->. by rewrite collect_preview_num.
  - intros n ->. simpl. by rewrite collect_preview_num, Qceiling_Z.
  - intros ->. simpl. by rewrite collect_preview_num.
  - intros Hnone. f_equal. apply collect_preview_none.
    destruct Hnone as [->| ->]; simpl; [by left | by right].
  - intros ->. simpl. by rewrite collect_preview_infinity.
Qed.

Lemma preview_first_rows_witness :
  preview_handler app_cwd rows_disk (Some "x/out.csv") (Some (Js.Num (3 # 2)))
  = PreviewJson [ {[ "A" := "1" ]}; {[ "A" := "2" ]} ]
  ∧ preview_handler app_cwd rows_disk (Some "x/out.csv") (Some Js.NaN)
    = PreviewJson [].
Proof.
  assert (Forall plain app_cwd) as Hcwd by (repeat constructor; discriminate).
  assert (plain (Path.basename "x/out.csv")) as Hplain
    by (repeat split; vm_compute; discriminate).
  split.
  - destruct (preview_first_rows app_cwd rows_disk "x/out.csv"
                (Some (Js.Num (3 # 2))) three_rows Hcwd Hplain eq_refl)
      as [Heq _].
    exact (Heq (3 # 2) eq_refl).
  - destruct (preview_first_rows app_cwd rows_disk "x/out.csv" (Some Js.NaN)
                three_rows Hcwd Hplain eq_refl) as (_ & _ & _ & Hnan & _).
    apply Hnan. by left.
Defined.

Lemma basename_cases p :
  Path.basename p = "" ∨ Path.basename p = "." ∨ Path.basename p = ".."
  ∨ plain (Path.basename p).
Proof.
  unfold plain.
  destruct (decide (Path.basename p = "")); [tauto|].
  destruct (decide (Path.basename p = ".")); [tauto|].
  destruct (decide (Path.basename p = "..")); tauto.
Qed.

(** X15: only the last segment of the [file] parameter counts, and the path
    the preview handler looks at never leaves the working directory: it is
    the name directly under the data directory for an ordinary last segment,
    the data directory itself for an empty one or [.], and the working
    directory for [..]. *)
Theorem preview_path_confined (cwd : list string) (file : string) :
  Forall plain cwd →
  Path.basename (Path.basename file) = Path.basename file
  ∧ resolve_preview cwd (Path.basename file) = resolve_preview cwd file
  ∧ cwd `prefix_of` resolve_preview cwd file
  ∧ (plain (Path.basename file) →
     resolve_preview cwd file = cwd ++ ["data"; Path.basename file])
  ∧ (Path.basename file = "" ∨ Path.basename file = "." →
     resolve_preview cwd file = DATA_DIR cwd)
  ∧ (Path.basename file = ".." → resolve_preview cwd file = cwd).
Proof.
  intros Hcwd.
  assert (Path.basename (Path.basename file) = Path.basename file) as Hidem
    by apply basename_whole, basename_no_slash.
  assert (Path.basename file = "" ∨ Path.basename file = "." →
          resolve_preview cwd file = DATA_DIR cwd) as Hdir.
  { intros Hb. unfold resolve_preview. rewrite join_data_dir by done.
    destruct Hb as [-> | ->]; reflexivity. }
  split_and!.
  - done.
  - unfold resolve_preview. by rewrite Hidem.
  - destruct (basename_cases file) as [Hb|[Hb|[Hb|Hb]]].
    + rewrite Hdir by tauto. by apply prefix_app_r.
    + rewrite Hdir by tauto. by apply prefix_app_r.
    + by rewrite (proj1 (resolve_preview_dotdot cwd file Hcwd Hb)).
    + rewrite (proj1 (resolve_preview_plain cwd file Hcwd Hb)).
      by apply prefix_app_r.
  - intros Hb. apply (resolve_preview_plain cwd file Hcwd Hb).
  - done.
  - intros Hb. apply (resolve_preview_dotdot cwd file Hcwd Hb).
Qed.

Lemma preview_path_confined_witness :
  resolve_preview app_cwd "../../etc/passwd" = ["srv"; "app"; "data"; "passwd"]
  ∧ app_cwd `prefix_of` resolve_preview app_cwd "a/b/..".
Proof.
  assert (Forall plain app_cwd) as Hcwd by (repeat constructor; discriminate).
  split.
  - destruct (preview_path_confined app_cwd "../../etc/passwd" Hcwd)
      as (_ & _ & _ & Hplain & _).
    rewrite Hplain; [vm_compute; reflexivity|].
    repeat split; vm_compute; discriminate.
  - destruct (preview_path_confined app_cwd "a/b/.." Hcwd) as (_ & _ & Hpre & _).
    exact Hpre.
Defined.

Lemma segments_nonempty s : ∃ seg rest, Path.segments s = seg :: rest.
Proof.
  destruct s as [|c s]; simpl; [by eexists _, _|].
  destruct (Ascii.eqb c "/"); [by eexists _, _|].
  destruct (Path.segments s); by eexists _, _.
Qed.

Lemma segments_app a b :
  Path.segments (a +:+ String "/" b) = Path.segments a ++ Path.segments b.
Proof.
  induction a as [|c a IH].
  - done.
  - rewrite append_cons. simpl. rewrite IH.
    destruct (Ascii.eqb c "/"); [done|].
    by destruct (segments_nonempty a) as (seg & rest & ->).
Qed.

Lemma no_slash_app a b : no_slash (a +:+ b) = no_slash a && no_slash b.
Proof.
  induction a as [|c a IH]; [done|].
  rewrite append_cons. simpl. by rewrite IH, andb_assoc.
Qed.

(** The last segment of [dir/name] is [name]. *)
Lemma basename_dir dir name :
  no_slash name = true → name ≠ "" →
  Path.basename (dir +:+ String "/" name) = name.
Proof.
  intros Hslash Hne. unfold Path.basename.
  rewrite segments_app, (segments_whole name Hslash), filter_app.
  rewrite (filter_cons _ name), decide_True by done.
  by rewrite filter_nil, last_snoc.
Qed.

Lemma consolidatedFilename_plain guid :
  no_slash guid = true →
  no_slash (consolidatedFilename guid) = true ∧ plain (consolidatedFilename guid).
Proof.
  intros Hguid. unfold consolidatedFilename. split.
  - rewrite !no_slash_app, Hguid. reflexivity.
  - repeat split; discriminate.
Qed.

(** X16: the upload answer and the preview handler fit together.  For a
    [guid] without a slash, the path a successful upload answers with, given
    back as the [file] parameter, has the consolidated file's name as its last
    segment and resolves to that name directly under the data directory,
    which is the file the job has left there. *)
Theorem upload_preview_round_trip
    (cwd : list string) (guid : string) (files : list zip_entry)
    (fs : filesystem) (p : list Js.obj) (d : distinct_sets) (loc : string) :
  Forall plain cwd → no_slash guid = true →
  (upload_handler guid (Some (Opened files)) Finish fs).1 = Json p d loc →
  Path.basename loc = consolidatedFilename guid
  ∧ resolve_preview cwd loc = cwd ++ ["data"; consolidatedFilename guid]
  ∧ Path.inside (DATA_DIR cwd) (resolve_preview cwd loc)
  ∧ is_Some (data (upload_handler guid (Some (Opened files)) Finish fs).2
               !! Path.basename loc).
Proof.
  intros Hcwd Hguid Hjson.
  destruct (consolidatedFilename_plain guid Hguid) as [Hslash Hplain].
  assert (csvEntries files ≠ []) as Hne.
  { intros Hnil. unfold upload_handler in Hjson. by rewrite Hnil in Hjson. }
  pose proof (upload_handler_lines guid files Finish fs Hne) as Hlines.
  unfold consolidated_lines in Hlines.
  assert (loc = "/data" +:+ String "/" (consolidatedFilename guid)) as ->.
  { revert Hjson. rewrite upload_handler_entries by done. cbn zeta.
    destruct (Stringifier.failed
                (csvStringifier (run_entries init_job (csvEntries files)).1)),
      (failure (csvEntries files)) as [[?|?]|]; simpl; try done.
    by intros [= _ _ <-]. }
  assert (Path.basename ("/data" +:+ String "/" (consolidatedFilename guid))
          = consolidatedFilename guid) as Hbase.
  { apply basename_dir; [done | by destruct Hplain]. }
  assert (plain (Path.basename
                   ("/data" +:+ String "/" (consolidatedFilename guid))))
    as Hplain' by (by rewrite Hbase).
  destruct (resolve_preview_plain cwd _ Hcwd Hplain') as [Hres Hin].
  split_and!; [done | by rewrite Hres, Hbase | done |].
  cbn [on_disk] in Hlines. by rewrite Hbase, Hlines.
Qed.

Lemma upload_preview_round_trip_witness :
  resolve_preview app_cwd "/data/consolidated-g.csv"
  = ["srv"; "app"; "data"; "consolidated-g.csv"].
Proof.
  assert (Forall plain app_cwd) as Hcwd by (repeat constructor; discriminate).
  assert (∃ p d,
            (upload_handler "g" (Some (Opened [first_csv])) Finish fresh_fs).1
            = Json p d "/data/consolidated-g.csv") as (p & d & Hjson)
    by (eexists _, _; vm_compute; reflexivity).
  destruct (upload_preview_round_trip app_cwd "g" [first_csv] fresh_fs p d
              "/data/consolidated-g.csv" Hcwd eq_refl Hjson) as (_ & Hres & _).
  exact Hres.
Defined.

(** ** Preview rows and raw rows *)

Lemma map_take {A B} (f : A → B) n (l : list A) :
  map f (take n l) = take n (map f l).
Proof.
  revert n. induction l as [|x l IH]; intros [|n]; simpl; [done..|].
  by rewrite IH.
Qed.

(** X17: the preview of a job is the projection, onto the canonical header,
    of the first 50 raw rows the job worked on, in their order across the
    entries; so it has as many rows as the job worked on, up to 50. *)
Theorem preview_of_raw_rows (entries : list zip_entry) (canonical : list string) :
  canonicalHeaders (run_entries init_job entries).1 = Some canonical →
  preview (run_entries init_job entries).1
  = map (project canonical)
      (take 50 (handled_rows false (all_events (processed entries))))
  ∧ length (preview (run_entries init_job entries).1)
    = min 50 (length (handled_rows false (all_events (processed entries)))).
Proof.
  rewrite run_entries_processed. simpl. rewrite parse_entries_events.
  rewrite events_first_headers by done.
  rewrite events_preview by (simpl; lia). simpl.
  rewrite rows_out_handled.
  destruct (first_headers _) as [headers|]; [|done].
  intros [= <-]. change PREVIEW_LIMIT with 50.
  rewrite map_take. split; [done|].
  by rewrite length_take, List.length_map.
Qed.

Lemma preview_of_raw_rows_witness :
  length (preview (run_entries init_job [bulk_csv 30; bulk_csv 30]).1) = 50.
Proof.
  assert (canonicalHeaders (run_entries init_job [bulk_csv 30; bulk_csv 30]).1
          = Some ["A"]) as Hc by (vm_compute; reflexivity).
  destruct (preview_of_raw_rows [bulk_csv 30; bulk_csv 30] ["A"] Hc) as [_ Hlen].
  rewrite Hlen. vm_compute. reflexivity.
Defined.
